(** * Verification of the news-intelligence pipeline core

    A shallow embedding of [main_orchestrator.py] (story clustering, token
    budgeted batching, rate-limited dispatch, record assembly, reporting) and
    of the engine selection of [config.py], with the properties the
    specification states about them.

    Conventions of the embedding:
    - Python [int] is [Z]; list positions are [nat].
    - Clock readings of [time.time()] and similarity scores are exact
      rationals ([Q]); rounding of binary floating point is not modelled.
    - A Python [str] is a [string]; one [ascii] stands for one character.
    - A [dict] used as a map ([all_llm_results]) is a [gmap]; a [list]
      updated by index ([visited]) uses stdpp's list lookup and insert.
    - An exception that leaves the modelled code is a value of [PyError]. *)

From Stdlib Require Import QArith Lqa Ascii.
From stdpp Require Import gmap strings list fin_maps sorting.

Local Open Scope Z_scope.

(** ** Python-level plumbing *)

Inductive PyError :=
  | IndexError
  | KeyError
  | ValueError
  | TypeError
  | TokenizerError.

Inductive Result (A : Type) :=
  | Ok (a : A)
  | Raise (e : PyError).
Arguments Ok {A} a.
Arguments Raise {A} e.

#[global] Instance Result_ret : MRet Result := fun A a => Ok a.
#[global] Instance Result_bind : MBind Result := fun A B k r =>
  match r with
  | Ok a => k a
  | Raise e => Raise e
  end.

#[global] Instance PyError_eq_dec : EqDecision PyError.
Proof. solve_decision. Defined.

(** Truthiness of a Python list ([if current_batch:]). *)
Definition truthy {A} (l : list A) : bool :=
  match l with
  | [] => false
  | _ :: _ => true
  end.

#[global] Instance Qle_dec : RelDecision Qle :=
  fun x y => decide (Qnum x * QDen y <= Qnum y * QDen x)%Z.
#[global] Instance Qlt_dec : RelDecision Qlt :=
  fun x y => decide (Qnum x * QDen y < Qnum y * QDen x)%Z.

(** ** Data model *)

(** An article as the scrapers emit it ([content_spyder.py],
    [fallback_scraper.py]) plus the two keys stage 2 adds. *)
Record Article := {
  url : string;
  title : string;
  published_at : option string;
  full_text : string;
  source_domain : string;
  article_id : string;
  scraped_at : string
}.

#[global] Instance Article_eq_dec : EqDecision Article.
Proof. solve_decision. Defined.

#[global] Instance Article_inhabited : Inhabited Article :=
  populate {| url := ""; title := ""; published_at := None; full_text := "";
              source_domain := ""; article_id := ""; scraped_at := "" |}.

(** ** Similarity Clusterer: [cluster_stories] *)

Module Clusterer.
Section Greedy.
(** [similarity_matrix i j] is entry [i][j] of
    [cosine_similarity(embeddings)]; the embedding model is external. *)
Variable similarity_matrix : nat -> nat -> Q.
Variable threshold : Q.

(** [visited[j]]; every index the loops read is below [len(articles)]. *)
Definition is_visited (visited : list bool) (j : nat) : bool :=
  default false (visited !! j).

(** The inner loop [for j in range(i + 1, len(articles))]. *)
Fixpoint scan_later (i : nat) (js : list nat) (visited : list bool)
    (current_cluster_indices : list nat) : list bool * list nat :=
  match js with
  | [] => (visited, current_cluster_indices)
  | j :: js' =>
      if negb (is_visited visited j)
         && bool_decide (threshold <= similarity_matrix i j)%Q
      then scan_later i js' (<[j:=true]> visited) (current_cluster_indices ++ [j])
      else scan_later i js' visited current_cluster_indices
  end.

(** The outer loop [for i in range(len(articles))]; [clusters] holds the
    index lists, the articles are looked up at the end. *)
Fixpoint seed_loop (n : nat) (todo : list nat) (visited : list bool)
    (clusters : list (list nat)) : list (list nat) :=
  match todo with
  | [] => clusters
  | i :: todo' =>
      if is_visited visited i then seed_loop n todo' visited clusters
      else
        let '(visited', current_cluster_indices) :=
          scan_later i (seq (S i) (n - S i)) (<[i:=true]> visited) [i] in
        seed_loop n todo' visited' (clusters ++ [current_cluster_indices])
  end.

Definition cluster_indices (n : nat) : list (list nat) :=
  seed_loop n (seq 0 n) (replicate n false) [].

Definition cluster_stories (articles : list Article) : list (list Article) :=
  if bool_decide (length articles < 2)%nat
  then (fun article : Article => [article]) <$> articles
  else (fun idx : list nat => (fun k : nat => articles !!! k) <$> idx)
         <$> cluster_indices (length articles).
End Greedy.
End Clusterer.

(** ** Story payloads and the Token-Budgeted Batcher (stage 4) *)

Record StoryPayload := {
  story_index : Z;
  text_for_llm : string;
  original_bucket : list Article
}.

(** A batch is the tuple [(current_batch, current_batch_tokens)]. *)
Definition Batch : Type := list StoryPayload * Z.

Module Batcher.
Definition nl : string := String "010"%char EmptyString.

(** [f"Title: {article['title']}\n\n{article['full_text']}"] *)
Definition article_text (article : Article) : string :=
  ("Title: " +:+ title article +:+ nl +:+ nl +:+ full_text article)%string.

(** [combined_text = "\n\n---\n\n".join([...])] *)
Definition combined_text (story_bucket : list Article) : string :=
  String.concat (nl +:+ nl +:+ "---" +:+ nl +:+ nl)%string
                (article_text <$> story_bucket).

(** [for i, story_bucket in enumerate(story_clusters)] *)
Definition make_payloads (story_clusters : list (list Article)) : list StoryPayload :=
  imap (fun (i : nat) (story_bucket : list Article) =>
          {| story_index := Z.of_nat i;
             text_for_llm := combined_text story_bucket;
             original_bucket := story_bucket |}) story_clusters.

Section Greedy.
(** [encode_len text] is [len(encoding.encode(text))]; [None] when the
    tokenizer raises. *)
Variable encode_len : string -> option Z.
(** [config.LLM_MAX_TOKENS_PER_CALL] *)
Variable LLM_MAX_TOKENS_PER_CALL : Z.

Definition tokenize (payload : StoryPayload) : Result Z :=
  match encode_len (text_for_llm payload) with
  | Some num_tokens => Ok num_tokens
  | None => Raise TokenizerError
  end.

(** The loop [for payload in story_payloads] followed by the final
    flush [if current_batch: list_of_batches.append(...)]. *)
Fixpoint batch_loop (story_payloads : list StoryPayload)
    (list_of_batches : list Batch) (current_batch : list StoryPayload)
    (current_batch_tokens : Z) : Result (list Batch) :=
  match story_payloads with
  | [] =>
      Ok (if truthy current_batch
          then list_of_batches ++ [(current_batch, current_batch_tokens)]
          else list_of_batches)
  | payload :: rest =>
      num_tokens ← tokenize payload;
      if truthy current_batch
         && bool_decide (LLM_MAX_TOKENS_PER_CALL < current_batch_tokens + num_tokens)
      then batch_loop rest
             (list_of_batches ++ [(current_batch, current_batch_tokens)])
             [payload] num_tokens
      else batch_loop rest list_of_batches
             (current_batch ++ [payload]) (current_batch_tokens + num_tokens)
  end.

Definition create_batches (story_payloads : list StoryPayload) : Result (list Batch) :=
  batch_loop story_payloads [] [] 0.
End Greedy.
End Batcher.

(** ** Analysis results and the Rate-Limited Dispatcher (stage 4) *)

Module Analysis.
(** One element of the list an engine returns. A field is [None] when the
    key is absent from the dict ([result['story_index']] then raises
    [KeyError], [.get] returns [None] or its default). *)
Record AnalysisResult := {
  story_index : option Z;
  canonical_title : option string;
  summary : option string;
  sentiment : option string;
  key_entities : option (list string);
  suggested_category : option string
}.

#[global] Instance AnalysisResult_eq_dec : EqDecision AnalysisResult.
Proof. solve_decision. Defined.

(** What [config.analyze_article(...)] evaluates to inside the [try]. *)
Inductive EngineOutcome :=
  | ReturnsList (analysis_results : list AnalysisResult)
  | ReturnsOther   (* a value that is not a list, such as [{"error": ...}] *)
  | Raises.        (* an [Exception] raised inside the [try] block *)
End Analysis.

Module Dispatcher.
(** What the outside world contributes to one loop iteration. *)
Record BatchEnv := {
  (** seconds elapsed since the previous iteration ended, when
      [now = time.time()] is read at the top of the loop body *)
  gap : Q;
  (** seconds [time.sleep] takes beyond the requested duration *)
  oversleep : Q;
  (** seconds the engine call takes *)
  latency : Q;
  (** the engine, applied to [llm_input_data] *)
  analyze : list (Z * string) -> Analysis.EngineOutcome
}.

Record State := {
  clock : Q;
  request_history : list (Q * Z);
  tokens_in_window : Z;
  all_llm_results : gmap Z Analysis.AnalysisResult
}.

Definition initial_state (start : Q) : State :=
  {| clock := start; request_history := []; tokens_in_window := 0;
     all_llm_results := ∅ |}.

(** [while request_history and now - request_history[0][0] > 60: popleft] *)
Fixpoint evict (now : Q) (request_history : list (Q * Z)) (tokens_in_window : Z)
    : list (Q * Z) * Z :=
  match request_history with
  | [] => ([], tokens_in_window)
  | (old_ts, old_tokens) :: rest =>
      if bool_decide (60 < now - old_ts)%Q
      then evict now rest (tokens_in_window - old_tokens)
      else (request_history, tokens_in_window)
  end.

(** [for result in analysis_results: all_llm_results[result['story_index']] = result];
    a missing key raises [KeyError], which the enclosing [except] turns
    into [continue], keeping the entries merged so far. *)
Fixpoint merge_results (analysis_results : list Analysis.AnalysisResult)
    (all_llm_results : gmap Z Analysis.AnalysisResult) : gmap Z Analysis.AnalysisResult :=
  match analysis_results with
  | [] => all_llm_results
  | result :: rest =>
      match Analysis.story_index result with
      | Some k => merge_results rest (<[k:=result]> all_llm_results)
      | None => all_llm_results
      end
  end.

(** [llm_input_data] *)
Definition llm_input_data (batch : list StoryPayload) : list (Z * string) :=
  (fun p : StoryPayload => (story_index p, text_for_llm p)) <$> batch.

Section Loop.
(** [config.LLM_TPM_LIMIT] *)
Variable LLM_TPM_LIMIT : Z.

(** Lines 161-172: the eviction, the budget check and the single wait.
    Returns the last clock reading with the window after it. *)
Definition rate_limit_wait (env : BatchEnv) (batch_tokens : Z) (st : State)
    : Result (Q * list (Q * Z) * Z) :=
  let now := (clock st + gap env)%Q in
  let '(history, tokens) := evict now (request_history st) (tokens_in_window st) in
  if bool_decide (LLM_TPM_LIMIT < tokens + batch_tokens)
  then
    match history with
    | [] => Raise IndexError
    | (oldest_ts, _) :: _ =>
        let time_to_wait := (60 - (now - oldest_ts) + 1)%Q in
        if bool_decide (time_to_wait < 0)%Q then Raise ValueError
        else
          let now' := (now + time_to_wait + oversleep env)%Q in
          let '(history', tokens') := evict now' history tokens in
          Ok (now', history', tokens')
    end
  else Ok (now, history, tokens).

(** One iteration of [for i, (batch, batch_tokens) in enumerate(list_of_batches)]. *)
Definition dispatch_batch (env : BatchEnv) (b : Batch) (st : State) : Result State :=
  let '(batch, batch_tokens) := b in
  '(now, history, tokens) ← rate_limit_wait env batch_tokens st;
  let call_end := (now + latency env)%Q in
  match analyze env (llm_input_data batch) with
  | Analysis.ReturnsList analysis_results =>
      Ok {| clock := call_end;
            request_history := history ++ [(call_end, batch_tokens)];
            tokens_in_window := tokens + batch_tokens;
            all_llm_results := merge_results analysis_results (all_llm_results st) |}
  | Analysis.ReturnsOther | Analysis.Raises =>
      Ok {| clock := call_end;
            request_history := history;
            tokens_in_window := tokens;
            all_llm_results := all_llm_results st |}
  end.

Fixpoint dispatch_loop (env : nat -> BatchEnv) (i : nat) (list_of_batches : list Batch)
    (st : State) : Result State :=
  match list_of_batches with
  | [] => Ok st
  | b :: rest =>
      st' ← dispatch_batch (env i) b st;
      dispatch_loop env (S i) rest st'
  end.
End Loop.
End Dispatcher.

(** ** Record Assembler (stage 4, second half) *)

Module Assembler.
Record StoryRecord := {
  story_id : string;
  canonical_title : string;
  summary : option string;
  sentiment : option string;
  key_entities : option (list string);
  suggested_category : option string;
  first_seen_at : option string;
  article_ids : list string;
  source_domains : list string;
  article_count : nat
}.

(** The sort key [len(x.get('full_text', ''))]. *)
Definition text_len (x : Article) : nat := String.length (full_text x).

(** [story_bucket.sort(key=..., reverse=True)]: a stable sort, longest
    text first; articles of equal length keep their order. *)
Fixpoint insert_desc (x : Article) (l : list Article) : list Article :=
  match l with
  | [] => [x]
  | y :: l' =>
      if (text_len x <? text_len y)%nat then y :: insert_desc x l' else x :: l
  end.

Definition sort_desc (story_bucket : list Article) : list Article :=
  foldr insert_desc [] story_bucket.

(** [a.get('published_at')] is truthy: present and not the empty string. *)
Definition truthy_date (a : Article) : option string :=
  match published_at a with
  | Some d => if decide (d = "") then None else Some d
  | None => None
  end.

Definition min_str (smallest d : string) : string :=
  if String.ltb d smallest then d else smallest.

(** [min([...], default=None)] *)
Definition earliest (dates : list string) : option string :=
  match dates with
  | [] => None
  | d :: rest => Some (foldl min_str d rest)
  end.

(** [sorted(list(set(...)))] *)
Fixpoint insert_unique (x : string) (l : list string) : list string :=
  match l with
  | [] => [x]
  | y :: l' =>
      match String.compare x y with
      | Lt => x :: l
      | Eq => l
      | Gt => y :: insert_unique x l'
      end
  end.

Definition sorted_set (l : list string) : list string := foldr insert_unique [] l.

(** The dict literal [story_record], for a bucket that has been sorted. *)
Definition story_record (fresh_uuid : string) (analysis_result : Analysis.AnalysisResult)
    (representative_article : Article) (story_bucket : list Article) : StoryRecord :=
  {| story_id := fresh_uuid;
     canonical_title := default (title representative_article)
                                (Analysis.canonical_title analysis_result);
     summary := Analysis.summary analysis_result;
     sentiment := Analysis.sentiment analysis_result;
     key_entities := Analysis.key_entities analysis_result;
     suggested_category := Analysis.suggested_category analysis_result;
     first_seen_at := earliest (omap truthy_date story_bucket);
     article_ids := article_id <$> story_bucket;
     source_domains := sorted_set (source_domain <$> story_bucket);
     article_count := length story_bucket |}.

Section Loop.
(** [uuid4 k] is the value of the [k]-th call [str(uuid.uuid4())]. *)
Variable uuid4 : nat -> string.
Variable all_llm_results : gmap Z Analysis.AnalysisResult.

(** The loop [for payload in story_payloads]. The third component is
    [story_payloads] as the loop leaves it: [story_bucket.sort] sorts the
    list object the payload refers to, so a bucket with a result stays
    sorted after the run. *)
Fixpoint assemble_loop (story_payloads : list StoryPayload)
    (final_articles : list Article) (final_stories : list StoryRecord)
    (visited_payloads : list StoryPayload)
    : Result (list Article * list StoryRecord * list StoryPayload) :=
  match story_payloads with
  | [] => Ok (final_articles, final_stories, visited_payloads)
  | payload :: rest =>
      let story_bucket := original_bucket payload in
      let final_articles := final_articles ++ story_bucket in
      match all_llm_results !! story_index payload with
      | Some analysis_result =>
          let story_bucket := sort_desc story_bucket in
          match story_bucket with
          | [] => Raise IndexError
          | representative_article :: _ =>
              assemble_loop rest final_articles
                (final_stories ++
                   [story_record (uuid4 (length final_stories)) analysis_result
                                 representative_article story_bucket])
                (visited_payloads ++
                   [{| story_index := story_index payload;
                       text_for_llm := text_for_llm payload;
                       original_bucket := story_bucket |}])
          end
      | None =>
          assemble_loop rest final_articles final_stories (visited_payloads ++ [payload])
      end
  end.

Definition assemble (story_payloads : list StoryPayload)
    : Result (list Article * list StoryRecord * list StoryPayload) :=
  assemble_loop story_payloads [] [] [].
End Loop.

(** A story record without its [story_id]. *)
Definition without_story_id (r : StoryRecord) : StoryRecord :=
  {| story_id := "";
     canonical_title := canonical_title r; summary := summary r;
     sentiment := sentiment r; key_entities := key_entities r;
     suggested_category := suggested_category r;
     first_seen_at := first_seen_at r; article_ids := article_ids r;
     source_domains := source_domains r; article_count := article_count r |}.
End Assembler.

(** ** [config.py]: constants and engine selection *)

Module Config.
Definition STORY_SIMILARITY_THRESHOLD : Q := 6 # 10.
Definition LLM_MAX_TOKENS_PER_CALL : Z := 50000.
Definition LLM_TPM_LIMIT : Z := 250000.

(** [list(CATEGORICAL_QUERIES.keys())] *)
Definition CATEGORICAL_QUERIES_keys : list string :=
  ["Mental Health Services"; "Regulatory & Policy"; "Business & M&A";
   "Substance Use & Opioids"; "Behavioral Health:"; "Clinic Based";
   "Behavioral Health Companies"].

Inductive PyValue :=
  | VStr (s : string)
  | VStrList (l : list string).

(** A dict literal, in insertion order. *)
Definition PyDict : Type := list (string * PyValue).

(** What an engine function returns: a list of story analyses or a dict. *)
Inductive Returned :=
  | RList (items : list Analysis.AnalysisResult)
  | RDict (d : PyDict).

(** An exception, with the text of [str(e)]. *)
Record Exn := { exn_type : PyError; exn_str : string }.

(** [random.choice(seq)], for the draw [r] of the generator. *)
Definition random_choice (r : nat) (seq : list string) : string :=
  seq !!! (r mod length seq)%nat.

(** [mock_analysis_engine(article_text)]; [r1], [r2] are the two draws
    of [random]. *)
Definition mock_analysis_engine (r1 r2 : nat) (article_text : string) : PyDict :=
  [("llm_canonical_title", VStr "This is a Mock Canonical Title for the Story");
   ("llm_summary", VStr "This is a mock summary of the article.");
   ("llm_sentiment", VStr (random_choice r1 ["Positive"; "Neutral"; "Negative"]));
   ("llm_key_entities", VStrList ["Mock Company A"; "Mock Person B"]);
   ("llm_suggested_category", VStr (random_choice r2 CATEGORICAL_QUERIES_keys))].

(** Calling [engine_function] with the keyword arguments [kwargs], for a
    function of one required parameter: any other set of keywords raises
    [TypeError]. *)
Definition call_with_kwargs (fname param : string) (body : string -> Returned)
    (kwargs : list (string * string)) : Returned + Exn :=
  match kwargs with
  | [] =>
      inr {| exn_type := TypeError;
             exn_str := fname +:+ "() missing 1 required positional argument: '"
                          +:+ param +:+ "'" |}
  | (k, v) :: others =>
      match filter (fun kv : string * string => kv.1 ≠ param) kwargs with
      | [] => inl (body v)
      | (bad, _) :: _ =>
          inr {| exn_type := TypeError;
                 exn_str := fname +:+ "() got an unexpected keyword argument '"
                              +:+ bad +:+ "'" |}
      end
  end.

Section Engines.
(** [GEMINI_API_KEY = os.getenv('GEMINI_API_KEY')] *)
Variable GEMINI_API_KEY : option string.
(** The body of [gemini_analysis_engine] after the key check: the remote
    call with its own [try]/[except], which returns a list or an error dict. *)
Variable gemini_call : string -> Returned.
(** The two draws [random] would make in the mock engine. *)
Variables r1 r2 : nat.

Definition gemini_analysis_engine (batch_input_json : string) : Returned :=
  match GEMINI_API_KEY with
  | None | Some EmptyString =>
      RDict [("error", VStr "GEMINI_API_KEY environment variable not set.")]
  | Some _ => gemini_call batch_input_json
  end.

(** The dict [ANALYSIS_ENGINES], each entry ready to be called with
    keyword arguments. *)
Definition ANALYSIS_ENGINES : gmap string (list (string * string) -> Returned + Exn) :=
  {[ "mock" := call_with_kwargs "mock_analysis_engine" "article_text"
                 (fun article_text => RDict (mock_analysis_engine r1 r2 article_text));
     "gemini" := call_with_kwargs "gemini_analysis_engine" "batch_input_json"
                   gemini_analysis_engine ]}.

(** [analyze_article], with [kwargs] the keyword arguments passed on. *)
Definition analyze_article (engine_name : string) (kwargs : list (string * string))
    : Returned :=
  match ANALYSIS_ENGINES !! engine_name with
  | None => RDict [("error", VStr ("'" +:+ engine_name +:+ "'"))]
  | Some engine_function =>
      match engine_function kwargs with
      | inl r => r
      | inr e => RDict [("error", VStr (exn_str e))]
      end
  end.

(** The dispatcher's view of the call at line 178:
    [isinstance(analysis_results, list)] or not. *)
Definition outcome_of (r : Returned) : Analysis.EngineOutcome :=
  match r with
  | RList items => Analysis.ReturnsList items
  | RDict _ => Analysis.ReturnsOther
  end.

(** [config.analyze_article(engine_name=..., batch_input_json=batch_input_string)] *)
Definition dispatcher_call (engine_name : string) (batch_input_string : string)
    : Analysis.EngineOutcome :=
  outcome_of (analyze_article engine_name [("batch_input_json", batch_input_string)]).
End Engines.
End Config.

(** ** The script body, stages 3 to 5 *)

Module Pipeline.
(** The two output files after the run; both are removed when the script
    starts, so [None] is a file that does not exist. *)
Record Outputs := {
  output_articles : option (list Article);
  output_stories : option (list Assembler.StoryRecord)
}.

(** Stage 5. *)
Definition report (final_articles : list Article)
    (final_stories : list Assembler.StoryRecord) : Outputs :=
  if truthy final_stories
  then {| output_articles := Some final_articles;
          output_stories := Some final_stories |}
  else {| output_articles := None; output_stories := None |}.

Section Run.
Variable similarity_matrix : nat -> nat -> Q.
Variable encode_len : string -> option Z.
Variable start : Q.
Variable env : nat -> Dispatcher.BatchEnv.
Variable uuid4 : nat -> string.

(** Stage 3. *)
Definition cluster (all_scraped_data : list Article) : list (list Article) :=
  if truthy all_scraped_data
  then Clusterer.cluster_stories similarity_matrix Config.STORY_SIMILARITY_THRESHOLD
         all_scraped_data
  else [].

(** Stage 4: [(final_articles, final_stories)]. *)
Definition analyze_stories (story_clusters : list (list Article))
    : Result (list Article * list Assembler.StoryRecord) :=
  if truthy story_clusters then
    let story_payloads := Batcher.make_payloads story_clusters in
    list_of_batches ←
      Batcher.create_batches encode_len Config.LLM_MAX_TOKENS_PER_CALL story_payloads;
    st ← Dispatcher.dispatch_loop Config.LLM_TPM_LIMIT env 0 list_of_batches
           (Dispatcher.initial_state start);
    let all_llm_results := Dispatcher.all_llm_results st in
    if bool_decide (all_llm_results ≠ ∅) then
      '(final_articles, final_stories, _) ←
        Assembler.assemble uuid4 all_llm_results story_payloads;
      Ok (final_articles, final_stories)
    else Ok ([], [])
  else Ok ([], []).

Definition run (all_scraped_data : list Article) : Result Outputs :=
  '(final_articles, final_stories) ← analyze_stories (cluster all_scraped_data);
  Ok (report final_articles final_stories).
End Run.
End Pipeline.

(** ** [config.py]: the Gemini engine behind its key check *)

Module Gemini.
(** [class StoryAnalysis(BaseModel)]: every field is required. *)
Record StoryAnalysis := {
  story_index : Z;
  canonical_title : string;
  summary : string;
  sentiment : string;
  key_entities : list string;
  locations : list string;
  suggested_category : string
}.

(** [item.model_dump()], as the keys the orchestrator reads; the key
    [locations] is in the dict too and is read nowhere. *)
Definition model_dump (item : StoryAnalysis) : Analysis.AnalysisResult :=
  {| Analysis.story_index := Some (story_index item);
     Analysis.canonical_title := Some (canonical_title item);
     Analysis.summary := Some (summary item);
     Analysis.sentiment := Some (sentiment item);
     Analysis.key_entities := Some (key_entities item);
     Analysis.suggested_category := Some (suggested_category item) |}.

(** What the [try] block of [gemini_analysis_engine] meets. *)
Inductive ClientOutcome :=
  | Parsed (items : list StoryAnalysis)   (* [response.parsed] is a list *)
  | Unparsed                              (* [response.parsed] is not a list *)
  | ClientRaises (msg : string).          (* an exception [e], [msg] is [str(e)] *)

(** The body of [gemini_analysis_engine] after the key check;
    [generate_content s] is the outcome of the request whose prompt embeds
    the batch [s]. *)
Definition gemini_call (generate_content : string -> ClientOutcome)
    (batch_input_json : string) : Config.Returned :=
  match generate_content batch_input_json with
  | Parsed items => Config.RList (model_dump <$> items)
  | Unparsed => Config.RList []
  | ClientRaises msg => Config.RDict [("error", Config.VStr msg)]
  end.

(** [config.SELECTED_ENGINE] *)
Definition SELECTED_ENGINE : string := "gemini".

(** Lines 175-178 of the orchestrator: the selected engine applied to
    [json.dumps(llm_input_data)]. *)
Definition selected_engine (json_dumps : list (Z * string) -> string)
    (GEMINI_API_KEY : option string) (generate_content : string -> ClientOutcome)
    (r1 r2 : nat) (llm_input_data : list (Z * string)) : Analysis.EngineOutcome :=
  Config.dispatcher_call GEMINI_API_KEY (gemini_call generate_content) r1 r2
    SELECTED_ENGINE (json_dumps llm_input_data).
End Gemini.

(** ** Stage 1: the queries and the feed links *)

Module Queries.
Definition dq : string := String "034"%char EmptyString.

(** ['"' + '" OR "'.join(keywords) + '"'] *)
Definition keyword_str (keywords : list string) : string :=
  (dq +:+ String.concat (dq +:+ " OR " +:+ dq) keywords +:+ dq)%string.

Section Queries.
(** [config.TARGET_REGIONS], the values of [config.CATEGORICAL_QUERIES] in
    insertion order, [config.MONITORED_WEBSITES]. *)
Variable TARGET_REGIONS : list string.
Variable CATEGORICAL_QUERIES_values : list (list string).
Variable MONITORED_WEBSITES : list string.
(** The two [strftime('%Y-%m-%d')] strings: the day before yesterday and
    today. *)
Variables after_date before_date : string.

Definition date_query : string :=
  ("after:" +:+ after_date +:+ " before:" +:+ before_date)%string.

Definition region_query (region : string) (keywords : list string) : string :=
  (dq +:+ region +:+ dq +:+ " AND (" +:+ keyword_str keywords +:+ ") AND " +:+ date_query)%string.

Definition site_query (site : string) : string :=
  ("site:" +:+ site +:+ " AND " +:+ date_query)%string.

Definition generate_google_queries : list string :=
  (region ← TARGET_REGIONS;
   (region_query region <$> CATEGORICAL_QUERIES_values))
  ++ (site_query <$> MONITORED_WEBSITES).
End Queries.

Section Fetch.
(** [feed_links query] is [entry.link] for the entries of the feed parsed
    from the search URL of [query]. *)
Variable feed_links : string -> list string.

(** The list [google_urls] before [list(set(...))]. *)
Definition raw_google_urls (queries : list string) : list string :=
  query ← queries; filter (λ link, link ≠ "") (feed_links query).

(** [list(set(google_urls))]: Python leaves the order of the result open;
    here it is the order of [elements]. *)
Definition fetch_google_urls (queries : list string) : list string :=
  elements (list_to_set (raw_google_urls queries) : gset string).
End Fetch.
End Queries.

(** ** Vocabulary of the properties *)

Module ClustererSpec.
Import Clusterer.
Section Greedy.
Variable sim : nat -> nat -> Q.
Variable τ : Q.

(** The test of the inner loop, against the [visited] list the scan
    started from. *)
Definition joins (visited : list bool) (i j : nat) : Prop :=
  is_visited visited j = false ∧ (τ <= sim i j)%Q.

#[global] Instance joins_dec visited i j : Decision (joins visited i j).
Proof. unfold joins. apply _. Defined.

(** The seed-only rule, as a property of the final list of index clusters:
    the cluster at position [p] starts with the least index [s] that no
    earlier cluster holds, followed by exactly the later indices that no
    earlier cluster holds and whose similarity to [s] reaches [τ]. *)
Definition seed_rule (n : nat) (cs : list (list nat)) : Prop :=
  ∀ p c, cs !! p = Some c →
    ∃ s, (s < n)%nat ∧ (s ∉ concat (take p cs)) ∧
         (∀ k, (k < s)%nat → k ∈ concat (take p cs)) ∧
         c = s :: filter (λ j, (j ∉ concat (take p cs)) ∧ (τ <= sim s j)%Q)
                         (seq (S s) (n - S s)).

Record loop_inv (n k : nat) (visited : list bool) (clusters : list (list nat)) : Prop := {
  inv_length : length visited = n;
  inv_visited : ∀ j, is_visited visited j = true ↔ j ∈ concat clusters;
  inv_before : ∀ j, (j < k)%nat → is_visited visited j = true;
  inv_nodup : NoDup (concat clusters);
  inv_rule : seed_rule n clusters
}.
End Greedy.
End ClustererSpec.

Module BatcherSpec.
Section Greedy.
Variable encode_len : string -> option Z.
Variable C : Z.

(** The tokenizer accepts the text of [p]. *)
Definition tokenizable (p : StoryPayload) : Prop :=
  is_Some (encode_len (text_for_llm p)).

(** [t] is the sum of the token counts of [payloads]. *)
Definition counted (payloads : list StoryPayload) (t : Z) : Prop :=
  ∃ ns, Forall2 (λ p n, encode_len (text_for_llm p) = Some n) payloads ns ∧
        t = foldr Z.add 0 ns.

Definition under_ceiling (payloads : list StoryPayload) (t : Z) : Prop :=
  counted payloads t ∧ ((1 < length payloads)%nat → t <= C).

Definition batch_ok (b : Batch) : Prop := b.1 ≠ [] ∧ under_ceiling b.1 b.2.
End Greedy.
End BatcherSpec.

Module WindowSpec.
(** The sum of the token counts the window holds. *)
Definition window_sum (history : list (Q * Z)) : Z :=
  foldr (λ e s, e.2 + s) 0 history.

End WindowSpec.

Module AssemblerSpec.
Import Assembler.
(** Longest text first. *)
Definition desc (x y : Article) : Prop := (text_len y <= text_len x)%nat.

Section Loop.
Variable all_llm_results : gmap Z Analysis.AnalysisResult.

(** The payload as one iteration leaves it. *)
Definition settled (p : StoryPayload) : StoryPayload :=
  match all_llm_results !! story_index p with
  | Some _ =>
      {| story_index := story_index p; text_for_llm := text_for_llm p;
         original_bucket := sort_desc (original_bucket p) |}
  | None => p
  end.

(** The record one iteration appends, without its [story_id]. *)
Definition appended (p : StoryPayload) : option StoryRecord :=
  analysis_result ← all_llm_results !! story_index p;
  match sort_desc (original_bucket p) with
  | [] => None
  | representative_article :: _ =>
      Some (without_story_id
              (story_record "" analysis_result representative_article
                            (sort_desc (original_bucket p))))
  end.

(** The iteration does not raise: a bucket with a result has a first
    article. *)
Definition ready (p : StoryPayload) : Prop :=
  is_Some (all_llm_results !! story_index p) → original_bucket p ≠ [].
End Loop.
End AssemblerSpec.

Module DispatcherSpec.
Import Dispatcher.
(** Time does not run backwards during the iteration. *)
Definition steady (env : BatchEnv) : Prop :=
  (0 <= gap env)%Q ∧ (0 <= oversleep env)%Q ∧ (0 <= latency env)%Q.

Definition earlier (a b : Q * Z) : Prop := (a.1 <= b.1)%Q.

(** The window is in the order of its timestamps, none of them after the
    last clock reading. *)
Definition ordered (st : State) : Prop :=
  StronglySorted earlier (request_history st) ∧
  Forall (λ e, (e.1 <= clock st)%Q) (request_history st).

(** Every analysis is stored under its own [story_index]. *)
Definition keyed (m : gmap Z Analysis.AnalysisResult) : Prop :=
  ∀ k r, m !! k = Some r → Analysis.story_index r = Some k.
End DispatcherSpec.

Module StringOrder.
(** The order Python compares two [str] by, character by character. *)
Definition str_lt (a b : string) : Prop := String.compare a b = Lt.
Definition str_le (a b : string) : Prop := String.leb a b = true.
End StringOrder.

(** ** Example data *)

(** A symmetric similarity matrix over three articles. *)
Definition sim3 (s01 s02 s12 : Q) (i j : nat) : Q :=
  match i, j with
  | 0%nat, 1%nat | 1%nat, 0%nat => s01
  | 0%nat, 2%nat | 2%nat, 0%nat => s02
  | 1%nat, 2%nat | 2%nat, 1%nat => s12
  | _, _ => 1%Q
  end.

(** A payload with an empty bucket, for batching examples. *)
Definition payload (i : Z) (text : string) : StoryPayload :=
  {| story_index := i; text_for_llm := text; original_bucket := [] |}.

Definition five_payloads : list StoryPayload :=
  [payload 0 "a"; payload 1 "b"; payload 2 "c"; payload 3 "d"; payload 4 "e"].

(** A well-formed analysis of the story [i]. *)
Definition analysis_of (i : Z) : Analysis.AnalysisResult :=
  {| Analysis.story_index := Some i;
     Analysis.canonical_title := Some "Clinic expands";
     Analysis.summary := Some "A clinic expands its services.";
     Analysis.sentiment := Some "Neutral";
     Analysis.key_entities := Some ["Clinic"];
     Analysis.suggested_category := Some "Healthcare Services" |}.

(** An engine that analyses every story it is given. *)
Definition echo_engine (input : list (Z * string)) : Analysis.EngineOutcome :=
  Analysis.ReturnsList ((λ p : Z * string, analysis_of p.1) <$> input).

(** An engine that returns an error dict. *)
Definition error_engine (input : list (Z * string)) : Analysis.EngineOutcome :=
  Analysis.ReturnsOther.

(** One second passes between two iterations; sleeping and the engine
    take no extra time. *)
Definition one_second (engine : list (Z * string) -> Analysis.EngineOutcome)
    : Dispatcher.BatchEnv :=
  {| Dispatcher.gap := 1; Dispatcher.oversleep := 0; Dispatcher.latency := 0;
     Dispatcher.analyze := engine |}.

(** An analysis without [story_index], and an engine that returns it
    between two well-formed ones. *)
Definition no_index : Analysis.AnalysisResult :=
  {| Analysis.story_index := None; Analysis.canonical_title := None;
     Analysis.summary := None; Analysis.sentiment := None;
     Analysis.key_entities := None; Analysis.suggested_category := None |}.

Definition malformed_env : Dispatcher.BatchEnv :=
  one_second (λ _, Analysis.ReturnsList [analysis_of 0; no_index; analysis_of 1]).

(** One analysis as the Gemini client parses it. *)
Definition sample_item : Gemini.StoryAnalysis :=
  {| Gemini.story_index := 0; Gemini.canonical_title := "Clinic expands";
     Gemini.summary := "A clinic expands its services."; Gemini.sentiment := "Neutral";
     Gemini.key_entities := ["Clinic"]; Gemini.locations := ["Texas"];
     Gemini.suggested_category := "Healthcare Services" |}.


(** Articles for assembly examples. *)
Definition article (id text domain : string) (date : option string) : Article :=
  {| url := "https://" +:+ domain +:+ "/" +:+ id; title := "Title " +:+ id;
     published_at := date; full_text := text; source_domain := domain;
     article_id := id; scraped_at := "2024-01-03T00:00:00" |}.

Definition three_articles : list Article :=
  [article "a1" "short" "b.example" None;
   article "a2" "the longest text" "a.example" (Some "2024-01-02");
   article "a3" "sized" "b.example" (Some "2024-01-01")].

(** One story made of the three articles, and its analysis. *)
Definition one_story : list StoryPayload := Batcher.make_payloads [three_articles].

Definition one_result : gmap Z Analysis.AnalysisResult := {[ 0 := analysis_of 0 ]}.

(** A tokenizer that counts characters. *)
Definition count_chars (text : string) : option Z := Some (Z.of_nat (String.length text)).

(** * Properties *)

(** ** Clusterer *)

Module ClustererFacts.
Import Clusterer ClustererSpec.

Lemma filter_ext_elem {A} (P Q : A -> Prop) `{!∀ x, Decision (P x)}
    `{!∀ x, Decision (Q x)} (l : list A) :
  (∀ x, x ∈ l → (P x ↔ Q x)) → filter P l = filter Q l.
Proof.
  induction l as [|x l IH]; intros HPQ; [done|].
  rewrite !filter_cons.
  rewrite IH; [|intros y Hy; apply HPQ; by right].
  destruct (decide (P x)) as [HP|HP], (decide (Q x)) as [HQ|HQ]; try done.
  - destruct HQ. apply HPQ; [by left | done].
  - destruct HP. apply HPQ; [by left | done].
Qed.

Lemma is_visited_insert visited i j :
  is_visited (<[i:=true]> visited) j = true ↔
  is_visited visited j = true ∨ (i = j ∧ (i < length visited)%nat).
Proof.
  unfold is_visited. destruct (decide (i = j)) as [->|Hne].
  - destruct (decide (j < length visited)%nat) as [Hlt|Hge].
    + rewrite list_lookup_insert_eq by done. simpl. naive_solver.
    + rewrite list_insert_ge by lia. split; [by left|intros [?|[_ ?]]; [done|lia]].
  - rewrite list_lookup_insert_ne by done. split; [by left|intros [?|[? _]]; done].
Qed.

Lemma is_visited_lt visited j : is_visited visited j = true → (j < length visited)%nat.
Proof.
  unfold is_visited. destruct (visited !! j) eqn:E; [|done].
  intros _. by eapply lookup_lt_Some.
Qed.

Section Greedy.
Variable sim : nat -> nat -> Q.
Variable τ : Q.

Local Abbreviation joins := (ClustererSpec.joins sim τ).
Local Abbreviation seed_rule := (ClustererSpec.seed_rule sim τ).
Local Abbreviation loop_inv := (ClustererSpec.loop_inv sim τ).

Lemma scan_later_spec i js : ∀ visited cur,
  NoDup js →
  Forall (λ j, (j < length visited)%nat) js →
  ∃ visited',
    scan_later sim τ i js visited cur = (visited', cur ++ filter (joins visited i) js) ∧
    length visited' = length visited ∧
    ∀ k, is_visited visited' k = true ↔
         is_visited visited k = true ∨ k ∈ filter (joins visited i) js.
Proof.
  induction js as [|j js IH]; intros visited cur Hnd Hlt.
  - exists visited. simpl. rewrite app_nil_r. split_and!; [done..|].
    intros k. rewrite filter_nil. split; [by left|intros [?|Hk]; [done|]].
    by apply elem_of_nil in Hk.
  - apply NoDup_cons in Hnd as [Hj Hnd]. apply Forall_cons in Hlt as [Hjlt Hlt].
    simpl. rewrite filter_cons.
    destruct (is_visited visited j) eqn:Evis; simpl.
    + destruct (decide (joins visited i j)) as [[? _]|_]; [congruence|].
      apply IH; done.
    + case_bool_decide as Hsim.
      * destruct (decide (joins visited i j)) as [_|Hno]; [|by destruct Hno].
        destruct (IH (<[j:=true]> visited) (cur ++ [j]) Hnd) as (v' & Heq & Hlen & Hvis).
        { by rewrite length_insert. }
        assert (filter (joins (<[j:=true]> visited) i) js = filter (joins visited i) js)
          as Hfil.
        { apply filter_ext_elem. intros x Hx. unfold joins.
          assert (is_visited (<[j:=true]> visited) x = is_visited visited x) as ->; [|done].
          unfold is_visited. rewrite list_lookup_insert_ne; [done|].
          intros ->. done. }
        rewrite Hfil in Heq, Hvis.
        exists v'. rewrite Heq, <-app_assoc. split_and!; [done| |].
        { by rewrite Hlen, length_insert. }
        intros k. rewrite Hvis, is_visited_insert, elem_of_cons. split.
        -- intros [[?|[<- _]]|?]; auto.
        -- intros [?|[->|?]]; auto.
      * destruct (decide (joins visited i j)) as [[_ ?]|_]; [done|].
        apply IH; done.
Qed.


Lemma seed_rule_snoc n clusters s :
  seed_rule n clusters →
  (s < n)%nat → s ∉ concat clusters →
  (∀ k, (k < s)%nat → k ∈ concat clusters) →
  seed_rule n
    (clusters ++ [s :: filter (λ j, (j ∉ concat clusters) ∧ (τ <= sim s j)%Q)
                              (seq (S s) (n - S s))]).
Proof.
  intros Hrule Hs Hnot Hbefore p c Hp.
  apply lookup_app_Some in Hp as [Hp|[Hge Hp]].
  - assert (p < length clusters)%nat as Hlt by by eapply lookup_lt_Some.
    rewrite take_app_le by lia. by apply Hrule.
  - apply list_lookup_singleton_Some in Hp as [Hp0 <-].
    assert (p = length clusters) as -> by lia.
    rewrite take_app_length. exists s. done.
Qed.

Lemma seed_loop_inv n : ∀ m k visited clusters,
  (k + m = n)%nat →
  loop_inv n k visited clusters →
  ∃ visited', loop_inv n n visited' (seed_loop sim τ n (seq k m) visited clusters).
Proof.
  induction m as [|m IH]; intros k visited clusters Hkm Hinv.
  - simpl. exists visited. assert (k = n) as <- by lia. done.
  - simpl. destruct (is_visited visited k) eqn:Evis.
    + apply IH; [lia|]. destruct Hinv. split; try done.
      intros j Hj. destruct (decide (j = k)) as [->|]; [done|]. apply inv_before0. lia.
    + destruct Hinv as [Hlen Hvis Hbefore Hnd Hrule].
      destruct (scan_later_spec k (seq (S k) (n - S k)) (<[k:=true]> visited) [k])
        as (v' & Heq & Hlen' & Hvis').
      { apply NoDup_seq. }
      { apply Forall_forall. intros j Hj. apply elem_of_seq in Hj.
        rewrite length_insert. lia. }
      rewrite Heq.
      assert (filter (joins (<[k:=true]> visited) k) (seq (S k) (n - S k))
              = filter (λ j, (j ∉ concat clusters) ∧ (τ <= sim k j)%Q) (seq (S k) (n - S k)))
        as Hfil.
      { apply filter_ext_elem. intros j Hj. apply elem_of_seq in Hj. unfold joins.
        rewrite <-Hvis. rewrite <-not_true_iff_false, is_visited_insert.
        split; intros [H1 H2]; (split; [|done]).
        - intros Hv. apply H1. by left.
        - intros [Hv|[-> _]]; [done|lia]. }
      rewrite Hfil in Heq, Hvis'. rewrite Hfil. clear Hfil Heq.
      assert (k ∉ concat clusters) as Hk.
      { rewrite <-Hvis. congruence. }
      apply IH; [lia|]. split.
      * by rewrite Hlen', length_insert.
      * intros j. rewrite Hvis', is_visited_insert, concat_app, Hvis. simpl.
        rewrite app_nil_r. rewrite elem_of_app, elem_of_cons.
        split; [intros [[?|[<- _]]|?]; auto|]. intros [?|[->|?]]; [tauto| |tauto].
        left. right. split; [done|lia].
      * intros j Hj. apply Hvis'. left. apply is_visited_insert.
        destruct (decide (j = k)) as [->|]; [right; split; [done|lia]|].
        left. apply Hbefore. lia.
      * rewrite concat_app. simpl. rewrite app_nil_r.
        apply NoDup_app. split_and!; [done| |].
        -- intros j Hj. rewrite elem_of_cons, list_elem_of_filter.
           intros [->|[[Hno _] _]]; done.
        -- apply NoDup_cons. split.
           ++ rewrite list_elem_of_filter, elem_of_seq. lia.
           ++ apply NoDup_filter, NoDup_seq.
      * apply seed_rule_snoc; try done; [lia|].
        intros j Hj. apply Hvis. by apply Hbefore.
Qed.

Lemma cluster_indices_inv n :
  ∃ visited', loop_inv n n visited' (cluster_indices sim τ n).
Proof.
  apply seed_loop_inv; [lia|]. split.
  - apply length_replicate.
  - intros j. unfold is_visited. simpl.
    destruct (replicate n false !! j) eqn:E.
    + apply lookup_replicate in E as [-> _]. set_solver.
    + set_solver.
  - lia.
  - constructor.
  - intros p c Hp. done.
Qed.

(** Each position below [n] occurs exactly once in the index clusters. *)
Lemma cluster_indices_partition n :
  NoDup (concat (cluster_indices sim τ n)) ∧
  (∀ k, k ∈ concat (cluster_indices sim τ n) ↔ (k < n)%nat).
Proof.
  destruct (cluster_indices_inv n) as (v & [Hlen Hvis Hbefore Hnd Hrule]).
  split; [done|]. intros k. rewrite <-Hvis. split.
  - intros Hk. apply is_visited_lt in Hk. lia.
  - apply Hbefore.
Qed.

Lemma cluster_indices_seed_rule n : seed_rule n (cluster_indices sim τ n).
Proof. destruct (cluster_indices_inv n) as (v & []). done. Qed.

(** The early return for fewer than two articles agrees with the loop. *)
Lemma cluster_stories_indices (articles : list Article) :
  cluster_stories sim τ articles =
  (λ idx : list nat, (λ k : nat, articles !!! k) <$> idx)
    <$> cluster_indices sim τ (length articles).
Proof.
  unfold cluster_stories. case_bool_decide as Hlen; [|done].
  destruct articles as [|a [|b l]]; [done|done|simpl in Hlen; lia].
Qed.

Lemma lookup_total_seq (articles : list Article) :
  (λ k : nat, articles !!! k) <$> seq 0 (length articles) = articles.
Proof.
  apply list_eq. intros i. rewrite list_lookup_fmap.
  destruct (decide (i < length articles)%nat) as [Hlt|Hge].
  - rewrite lookup_seq_lt by done. simpl.
    destruct (lookup_lt_is_Some_2 articles i Hlt) as [x Hx].
    rewrite Hx. f_equal. by apply list_lookup_total_correct.
  - rewrite lookup_seq_ge by lia. simpl. symmetry. apply lookup_ge_None. lia.
Qed.

Lemma concat_fmap_fmap {A B} (f : A -> B) (ls : list (list A)) :
  concat ((λ l : list A, f <$> l) <$> ls) = f <$> concat ls.
Proof.
  induction ls as [|l ls IH]; [done|]. csimpl. by rewrite IH, fmap_app.
Qed.

Lemma cluster_stories_perm (articles : list Article) :
  concat (cluster_stories sim τ articles) ≡ₚ articles.
Proof.
  destruct (cluster_indices_partition (length articles)) as [Hnd Hcover].
  rewrite cluster_stories_indices, concat_fmap_fmap.
  rewrite <-(lookup_total_seq articles) at 2.
  apply fmap_Permutation, NoDup_Permutation; [done|apply NoDup_seq|].
  intros k. rewrite Hcover, elem_of_seq. lia.
Qed.
End Greedy.

(** C7 (partition property). For every similarity matrix, threshold and
    input list, the buckets [cluster_stories] returns are the articles at
    the positions of a family of index lists in which every input position
    occurs exactly once: the index lists are pairwise disjoint (their
    concatenation has no duplicate) and cover exactly the positions below
    [len(articles)]; so the buckets, concatenated, are the input articles up
    to order. *)
Theorem cluster_stories_partition (sim : nat -> nat -> Q) (τ : Q) (articles : list Article) :
  let buckets := cluster_stories sim τ articles in
  ∃ idx : list (list nat),
    buckets = (λ c : list nat, (λ k : nat, articles !!! k) <$> c) <$> idx ∧
    NoDup (concat idx) ∧
    (∀ k, k ∈ concat idx ↔ (k < length articles)%nat) ∧
    concat buckets ≡ₚ articles.
Proof.
  intros buckets. exists (cluster_indices sim τ (length articles)).
  destruct (cluster_indices_partition sim τ (length articles)) as [Hnd Hcover].
  assert (buckets = (λ c : list nat, (λ k : nat, articles !!! k) <$> c)
                      <$> cluster_indices sim τ (length articles)) as Hb
    by apply cluster_stories_indices.
  split_and!; try done.
  apply cluster_stories_perm.
Qed.

(** The seed-only rule and the coverage of all positions leave no choice:
    two lists of clusters that both obey them agree on every prefix. *)
Lemma seed_rule_prefix (sim : nat -> nat -> Q) (τ : Q) (n : nat) (cs cs' : list (list nat)) :
  seed_rule sim τ n cs → seed_rule sim τ n cs' →
  (∀ k, (k < n)%nat → k ∈ concat cs) → (∀ k, (k < n)%nat → k ∈ concat cs') →
  ∀ p, take p cs = take p cs'.
Proof.
  intros Hrule Hrule' Hcover Hcover'.
  assert (∀ (l l' : list (list nat)) p c,
            seed_rule sim τ n l → (∀ k, (k < n)%nat → k ∈ concat l') →
            take p l = take p l' → l !! p = Some c → l' !! p = None → False) as Hshort.
  { intros l l' p c Hl Hl' Htake Hp Hnone.
    destruct (Hl p c Hp) as (s & Hs & Hnot & _). apply Hnot. rewrite Htake.
    apply lookup_ge_None in Hnone. rewrite take_ge by done. by apply Hl'. }
  induction p as [|p IH]; [done|].
  destruct (cs !! p) as [c|] eqn:Hp, (cs' !! p) as [c'|] eqn:Hp'.
  - rewrite (take_S_r _ _ _ Hp), (take_S_r _ _ _ Hp'), IH. do 2 f_equal.
    destruct (Hrule p c Hp) as (s & _ & Hnot & Hbefore & ->).
    destruct (Hrule' p c' Hp') as (s' & _ & Hnot' & Hbefore' & ->).
    rewrite <-IH in Hnot', Hbefore' |- *.
    assert (s = s') as <-; [|done].
    destruct (Nat.lt_trichotomy s s') as [Hlt|[->|Hgt]]; [|done|].
    + destruct Hnot. by apply Hbefore'.
    + destruct Hnot'. by apply Hbefore.
  - destruct (Hshort cs cs' p c); done.
  - destruct (Hshort cs' cs p c'); done.
  - apply lookup_ge_None in Hp, Hp'. rewrite !take_ge in IH |- * by lia. done.
Qed.

Lemma seed_rule_unique (sim : nat -> nat -> Q) (τ : Q) (n : nat) (cs cs' : list (list nat)) :
  seed_rule sim τ n cs → seed_rule sim τ n cs' →
  (∀ k, (k < n)%nat → k ∈ concat cs) → (∀ k, (k < n)%nat → k ∈ concat cs') →
  cs' = cs.
Proof.
  intros Hrule Hrule' Hcover Hcover'.
  pose proof (seed_rule_prefix sim τ n cs cs' Hrule Hrule' Hcover Hcover'
                (length cs + length cs')) as Htake.
  rewrite !take_ge in Htake by lia. done.
Qed.

(** C8 (seed-only rule). The buckets are the articles at the index
    clusters of the greedy loop. Every input position lies in exactly one
    cluster, and the cluster at each position [p] is made of its seed [s],
    the first index no earlier cluster holds, followed in input order by
    exactly the later indices [j] that no earlier cluster holds and with
    [similarity_matrix[s][j] >= threshold]; so every article that is
    unvisited when its turn comes seeds a bucket, and the similarity between
    two non-seed members plays no part. These two facts fix the result: any
    list of clusters that covers all positions and obeys the rule is the one
    the loop returns. In particular, with threshold 0.6, articles 1 and 2
    both similar to article 0 but not to each other share its bucket, and
    article 2 similar only to the non-seed member 1 stays out of the bucket
    of seed 0. *)
Theorem cluster_stories_seed_rule (sim : nat -> nat -> Q) (τ : Q) (articles : list Article) :
  let n := length articles in
  let cs := cluster_indices sim τ n in
  cluster_stories sim τ articles
    = (λ c : list nat, (λ k : nat, articles !!! k) <$> c) <$> cs ∧
  (∀ p c, cs !! p = Some c →
     ∃ s, (s < n)%nat ∧ (s ∉ concat (take p cs)) ∧
          (∀ k, (k < s)%nat → k ∈ concat (take p cs)) ∧
          c = s :: filter (λ j, (j ∉ concat (take p cs)) ∧ (τ <= sim s j)%Q)
                          (seq (S s) (n - S s))) ∧
  NoDup (concat cs) ∧
  (∀ k, k ∈ concat cs ↔ (k < n)%nat) ∧
  (∀ cs', seed_rule sim τ n cs' → (∀ k, (k < n)%nat → k ∈ concat cs') → cs' = cs) ∧
  cluster_indices (sim3 (9#10) (9#10) (1#10)) (6#10) 3 = [[0; 1; 2]]%nat ∧
  cluster_indices (sim3 (9#10) (1#10) (9#10)) (6#10) 3 = [[0; 1]; [2]]%nat.
Proof.
  intros n cs.
  destruct (cluster_indices_partition sim τ n) as [Hnd Hcover].
  split_and!.
  - apply cluster_stories_indices.
  - apply cluster_indices_seed_rule.
  - done.
  - done.
  - intros cs' Hrule' Hcover'. apply (seed_rule_unique sim τ n cs cs').
    + apply cluster_indices_seed_rule.
    + done.
    + intros k Hk. by apply Hcover.
    + done.
  - vm_compute. reflexivity.
  - vm_compute. reflexivity.
Qed.
End ClustererFacts.


(** ** Batcher *)

Module BatcherFacts.
Import Batcher BatcherSpec.

Section Greedy.
Variable encode_len : string -> option Z.
Variable C : Z.

Local Abbreviation tokenizable := (BatcherSpec.tokenizable encode_len).
Local Abbreviation counted := (BatcherSpec.counted encode_len).
Local Abbreviation under_ceiling := (BatcherSpec.under_ceiling encode_len C).
Local Abbreviation batch_ok := (BatcherSpec.batch_ok encode_len C).

Lemma counted_nil : counted [] 0.
Proof. exists []. split; [constructor|done]. Qed.

Lemma counted_snoc payloads t p n :
  counted payloads t → encode_len (text_for_llm p) = Some n →
  counted (payloads ++ [p]) (t + n).
Proof.
  intros (ns & Hall & ->) Hp. exists (ns ++ [n]). split.
  - apply Forall2_app; [done|]. by repeat constructor.
  - rewrite foldr_app. simpl. clear Hall. induction ns as [|m ns IH]; simpl; lia.
Qed.

Lemma batch_loop_ok story_payloads : ∀ acc cur t bs,
  batch_loop encode_len C story_payloads acc cur t = Ok bs →
  Forall batch_ok acc → under_ceiling cur t →
  Forall batch_ok bs ∧ concat bs.*1 = concat acc.*1 ++ cur ++ story_payloads.
Proof.
  induction story_payloads as [|p rest IH]; intros acc cur t bs Hrun Hacc Hcur; simpl in Hrun.
  - destruct cur as [|q cur]; simpl in Hrun; injection Hrun as <-.
    + by rewrite !app_nil_r.
    + split.
      * apply Forall_app. split; [done|]. apply Forall_singleton. by split.
      * rewrite fmap_app, concat_app. simpl. by rewrite !app_nil_r.
  - unfold tokenize in Hrun. destruct (encode_len (text_for_llm p)) as [n|] eqn:Hn;
      [|done]. simpl in Hrun.
    destruct (truthy cur && bool_decide (C < t + n)) eqn:Hflush.
    + apply andb_prop in Hflush as [Hne _].
      apply IH in Hrun as [Hok Hcat].
      * split; [done|]. rewrite Hcat, fmap_app, concat_app. simpl.
        by rewrite app_nil_r, <-!app_assoc.
      * apply Forall_app. split; [done|]. apply Forall_singleton.
        split; [simpl; by destruct cur|done].
      * split; [|simpl; lia].
        replace n with (0 + n) by lia. apply (counted_snoc [] 0); [apply counted_nil|done].
    + apply IH in Hrun as [Hok Hcat]; [|done|].
      * split; [done|]. by rewrite Hcat, <-!app_assoc.
      * destruct Hcur as [Hcount Hle]. split; [by apply counted_snoc|].
        rewrite length_app. simpl. intros Hlen.
        destruct cur as [|q cur]; [simpl in Hlen; lia|].
        simpl in Hflush. case_bool_decide; [done|lia].
Qed.

Lemma batch_loop_total story_payloads : ∀ acc cur t,
  Forall tokenizable story_payloads →
  ∃ bs, batch_loop encode_len C story_payloads acc cur t = Ok bs.
Proof.
  induction story_payloads as [|p rest IH]; intros acc cur t Htok; simpl.
  - eauto.
  - apply Forall_cons in Htok as [[n Hn] Htok]. unfold tokenize. rewrite Hn. simpl.
    destruct (truthy cur && bool_decide (C < t + n)); by apply IH.
Qed.

(** A payload the tokenizer rejects aborts the batching. *)
Lemma batch_loop_fatal story_payloads : ∀ acc cur t,
  ¬ Forall tokenizable story_payloads →
  batch_loop encode_len C story_payloads acc cur t = Raise TokenizerError.
Proof.
  induction story_payloads as [|p rest IH]; intros acc cur t Htok; simpl.
  - destruct Htok. constructor.
  - unfold tokenize. destruct (encode_len (text_for_llm p)) as [n|] eqn:Hn; [|done].
    simpl. assert (¬ Forall tokenizable rest) as Hrest.
    { intros Hrest. apply Htok. constructor; [|done]. unfold tokenizable. by rewrite Hn. }
    destruct (truthy cur && bool_decide (C < t + n)); by apply IH.
Qed.

Lemma create_batches_ok story_payloads :
  Forall tokenizable story_payloads →
  ∃ bs, create_batches encode_len C story_payloads = Ok bs ∧
        Forall batch_ok bs ∧ concat bs.*1 = story_payloads.
Proof.
  intros Htok. destruct (batch_loop_total story_payloads [] [] 0 Htok) as [bs Hbs].
  exists bs. split; [done|]. apply batch_loop_ok in Hbs as [Hok Hcat]; [done|constructor|].
  split; [apply counted_nil|simpl; lia].
Qed.
End Greedy.

(** C4 (token ceiling). For every tokenizer that accepts the payload
    texts and every ceiling [C], the Batcher returns batches, none of them
    empty, each carrying as [token_count] the sum of the token counts of its
    payloads; every batch with more than one payload has [token_count <= C];
    the batches concatenated are the input payloads, so no payload is
    dropped or split; and a batch of exactly one payload can exceed [C]
    (one payload of 70000 tokens under the ceiling 50000). *)
Theorem token_ceiling (encode_len : string -> option Z) (C : Z)
    (story_payloads : list StoryPayload) :
  Forall (tokenizable encode_len) story_payloads →
  (∃ bs, create_batches encode_len C story_payloads = Ok bs ∧
         Forall (λ b : Batch,
                   b.1 ≠ [] ∧ counted encode_len b.1 b.2 ∧
                   ((1 < length b.1)%nat → b.2 <= C)) bs ∧
         concat bs.*1 = story_payloads) ∧
  create_batches (λ _, Some 70000) 50000 [payload 0 "long story"]
    = Ok [([payload 0 "long story"], 70000)].
Proof.
  intros Htok. split; [|done].
  destruct (create_batches_ok encode_len C story_payloads Htok) as (bs & Hbs & Hok & Hcat).
  exists bs. split_and!; [done| |done].
  eapply Forall_impl; [exact Hok|]. intros b (Hne & Hcount & Hle). done.
Qed.

Lemma token_ceiling_witness :
  Forall (tokenizable (λ _, Some 12000)) five_payloads ∧
  (∃ bs, create_batches (λ _, Some 12000) 50000 five_payloads = Ok bs ∧
         Forall (λ b : Batch,
                   b.1 ≠ [] ∧ counted (λ _, Some 12000) b.1 b.2 ∧
                   ((1 < length b.1)%nat → b.2 <= 50000)) bs ∧
         concat bs.*1 = five_payloads) ∧
  create_batches (λ _, Some 70000) 50000 [payload 0 "long story"]
    = Ok [([payload 0 "long story"], 70000)].
Proof.
  assert (Forall (tokenizable (λ _, Some 12000)) five_payloads) as Htok.
  { unfold five_payloads. repeat constructor; eexists; reflexivity. }
  split; [exact Htok|]. exact (token_ceiling (λ _, Some 12000) 50000 five_payloads Htok).
Defined.

(** C5 (batch coverage and ordering). For every tokenizer that accepts
    the payload texts, the Batcher returns batches whose payload lists,
    concatenated in order, are the input payload sequence itself. *)
Theorem batch_coverage (encode_len : string -> option Z) (C : Z)
    (story_payloads : list StoryPayload) :
  Forall (tokenizable encode_len) story_payloads →
  ∃ bs, create_batches encode_len C story_payloads = Ok bs ∧
        concat bs.*1 = story_payloads.
Proof.
  intros Htok.
  destruct (create_batches_ok encode_len C story_payloads Htok) as (bs & Hbs & _ & Hcat).
  by exists bs.
Qed.

Lemma batch_coverage_witness :
  Forall (tokenizable (λ s, Some (Z.of_nat (String.length s))))
         [payload 0 "one"; payload 1 "three"] ∧
  ∃ bs, create_batches (λ s, Some (Z.of_nat (String.length s))) 6
          [payload 0 "one"; payload 1 "three"] = Ok bs ∧
        concat bs.*1 = [payload 0 "one"; payload 1 "three"].
Proof.
  assert (Forall (tokenizable (λ s, Some (Z.of_nat (String.length s))))
           [payload 0 "one"; payload 1 "three"])
    as Htok by (repeat constructor; eexists; reflexivity).
  split; [exact Htok|]. exact (batch_coverage _ 6 _ Htok).
Defined.

(** The scenario of the specification: five payloads of 12000 tokens under
    the ceiling 50000 give batches of sizes 4 and 1. *)
Example five_payloads_batches :
  create_batches (λ _, Some 12000) 50000 five_payloads
  = Ok [([payload 0 "a"; payload 1 "b"; payload 2 "c"; payload 3 "d"], 48000);
        ([payload 4 "e"], 12000)].
Proof. vm_compute. reflexivity. Qed.
End BatcherFacts.

(** ** Dispatcher *)

Module DispatcherFacts.
Import Dispatcher WindowSpec.

Lemma window_sum_app h1 h2 : window_sum (h1 ++ h2) = window_sum h1 + window_sum h2.
Proof. induction h1 as [|e h1 IH]; simpl; lia. Qed.


(** The eviction loop removes a prefix of entries, all of them older than
    60 seconds, subtracts exactly their token counts, and stops at an entry
    that is not older than 60 seconds. *)
Lemma evict_spec now history tokens :
  ∃ old,
    history = old ++ (evict now history tokens).1 ∧
    Forall (λ e, (60 < now - e.1)%Q) old ∧
    (evict now history tokens).2 = tokens - window_sum old ∧
    (∀ e rest, (evict now history tokens).1 = e :: rest → ¬ (60 < now - e.1)%Q).
Proof.
  revert tokens. induction history as [|[ts tk] history IH]; intros tokens.
  - exists []. simpl. split_and!; [done|constructor|lia|done].
  - simpl. case_bool_decide as Hold.
    + destruct (IH (tokens - tk)) as (old & Heq & Hall & Htok & Hhead).
      exists ((ts, tk) :: old). simpl. split_and!; [by f_equal|by constructor|lia|done].
    + exists []. simpl. split_and!; [done|constructor|lia|].
      intros e rest [= <- <-]. done.
Qed.

Section Loop.
Variable L : Z.

(** What [rate_limit_wait] returns is the window with a prefix removed,
    the counter lowered by the removed token counts. *)
Lemma rate_limit_wait_spec env batch_tokens st now history tokens :
  rate_limit_wait L env batch_tokens st = Ok (now, history, tokens) →
  ∃ old, request_history st = old ++ history ∧
         tokens = tokens_in_window st - window_sum old.
Proof.
  unfold rate_limit_wait.
  destruct (evict_spec (clock st + gap env) (request_history st) (tokens_in_window st))
    as (old & Heq & _ & Htok & _).
  destruct (evict _ (request_history st) _) as [h1 t1]. simpl in *.
  case_bool_decide as Hover.
  - destruct h1 as [|[ts0 tk0] h1]; [done|]. case_bool_decide; [done|].
    match goal with |- context [evict ?n ?h ?t] =>
      destruct (evict_spec n h t) as (old' & Heq' & _ & Htok' & _);
      destruct (evict n h t) as [h2 t2] end.
    simpl in *. intros [= <- <- <-]. exists (old ++ old').
    rewrite Heq, Heq', window_sum_app, <-app_assoc. split; [done|lia].
  - intros [= <- <- <-]. by exists old.
Qed.

(** The only exception of the wait step is the [IndexError] of
    [request_history[0][0]] on an empty window: the requested sleep is
    never negative. *)
Lemma rate_limit_wait_raise env batch_tokens st e :
  rate_limit_wait L env batch_tokens st = Raise e ↔
  e = IndexError ∧
  (evict (clock st + gap env) (request_history st) (tokens_in_window st)).1 = [] ∧
  L < (evict (clock st + gap env) (request_history st) (tokens_in_window st)).2
      + batch_tokens.
Proof.
  unfold rate_limit_wait.
  destruct (evict_spec (clock st + gap env) (request_history st) (tokens_in_window st))
    as (old & _ & _ & _ & Hhead).
  destruct (evict _ (request_history st) _) as [h1 t1]. simpl in *.
  case_bool_decide as Hover.
  - destruct h1 as [|[ts0 tk0] h1].
    + split; [intros [= <-]; done|]. by intros (-> & _ & _).
    + specialize (Hhead _ _ eq_refl). simpl in Hhead.
      case_bool_decide as Hneg; [exfalso; apply Hhead; lra|].
      destruct (evict _ _ _) as [h2 t2]. split; [done|]. by intros (_ & ? & _).
  - split; [done|]. intros (_ & _ & ?). lia.
Qed.

Lemma dispatch_loop_app env : ∀ l1 l2 i st,
  dispatch_loop L env i (l1 ++ l2) st =
  (dispatch_loop L env i l1 st ≫= dispatch_loop L env (i + length l1) l2).
Proof.
  induction l1 as [|b l1 IH]; intros l2 i st; simpl.
  - by rewrite Nat.add_0_r.
  - destruct (dispatch_batch L (env i) b st) as [st'|e]; simpl; [|done].
    rewrite IH. by replace (S i + length l1)%nat with (i + S (length l1))%nat by lia.
Qed.




End Loop.




(** C6 (a failed batch is skipped). When the call for a batch is reached
    and the engine returns a value that is not a list, or raises, the
    iteration ends without an exception; the window is the one the call
    found, a suffix of the window before the iteration, so no entry was
    added, and the counter moved only by the evicted entries; the output
    mapping is unchanged, so it holds what earlier batches merged and
    nothing for this batch; and the loop goes on with the next batch. *)
Theorem failed_batch_skipped (L : Z) (env : nat -> BatchEnv) (i : nat)
    (batch : list StoryPayload) (batch_tokens : Z) (rest : list Batch) (st : State)
    (now : Q) (history : list (Q * Z)) (tokens : Z) :
  rate_limit_wait L (env i) batch_tokens st = Ok (now, history, tokens) →
  analyze (env i) (llm_input_data batch) = Analysis.ReturnsOther ∨
  analyze (env i) (llm_input_data batch) = Analysis.Raises →
  ∃ st',
    dispatch_batch L (env i) (batch, batch_tokens) st = Ok st' ∧
    request_history st' = history ∧
    tokens_in_window st' = tokens ∧
    request_history st' `suffix_of` request_history st ∧
    tokens_in_window st' - window_sum (request_history st')
      = tokens_in_window st - window_sum (request_history st) ∧
    all_llm_results st' = all_llm_results st ∧
    dispatch_loop L env i ((batch, batch_tokens) :: rest) st
      = dispatch_loop L env (S i) rest st'.
Proof.
  intros Hwait Hfail.
  exists {| clock := (now + latency (env i))%Q; request_history := history;
            tokens_in_window := tokens; all_llm_results := all_llm_results st |}.
  assert (dispatch_batch L (env i) (batch, batch_tokens) st
          = Ok {| clock := (now + latency (env i))%Q; request_history := history;
                  tokens_in_window := tokens; all_llm_results := all_llm_results st |})
    as Hstep.
  { unfold dispatch_batch. rewrite Hwait. simpl. by destruct Hfail as [-> | ->]. }
  apply rate_limit_wait_spec in Hwait as (old & Heq & Htok).
  split_and!; [done..| | | |].
  - by exists old.
  - simpl. rewrite Heq, window_sum_app. lia.
  - done.
  - cbn -[dispatch_batch]. by rewrite Hstep.
Qed.

Lemma failed_batch_skipped_witness :
  ∃ st',
    dispatch_batch 100 (one_second error_engine) ([payload 1 "b"], 30)
      {| clock := 5; request_history := [(5%Q, 40)]; tokens_in_window := 40;
         all_llm_results := {[ 0 := analysis_of 0 ]} |} = Ok st' ∧
    request_history st' = [(5%Q, 40)] ∧
    tokens_in_window st' = 40 ∧
    all_llm_results st' = {[ 0 := analysis_of 0 ]}.
Proof.
  destruct (failed_batch_skipped 100 (λ _, one_second error_engine) 0
              [payload 1 "b"] 30 []
              {| clock := 5; request_history := [(5%Q, 40)]; tokens_in_window := 40;
                 all_llm_results := {[ 0 := analysis_of 0 ]} |}
              (6%Q) [(5%Q, 40)] 40)
    as (st' & Hstep & Hh & Ht & _ & _ & Hres & _).
  - vm_compute. reflexivity.
  - left. reflexivity.
  - exists st'. split_and!; [exact Hstep|exact Hh|exact Ht|exact Hres].
Defined.

(** The scenario of the specification: the engine returns an error dict for
    batch 2 of 3; the mapping holds the results of batches 1 and 3 only. *)
Example error_on_second_batch :
  ∃ st,
    dispatch_loop 100
      (λ i, one_second (if decide (i = 1%nat) then error_engine else echo_engine)) 0
      [([payload 0 "a"], 10); ([payload 1 "b"], 10); ([payload 2 "c"], 10)]
      (initial_state 0) = Ok st ∧
    all_llm_results st = {[ 0 := analysis_of 0; 2 := analysis_of 2 ]} ∧
    request_history st = [(1%Q, 10); (3%Q, 10)] ∧
    tokens_in_window st = 20.
Proof. eexists. split; [vm_compute; reflexivity|]. simpl. split_and!; reflexivity. Qed.

(** C10 (the wait step on an empty window). A batch whose own token count
    exceeds the limit [L], met with an empty window (as the first batch
    is), makes the budget check fail and the wait computation read
    [request_history[0][0]] of an empty deque: the iteration raises
    [IndexError] before the engine is called, and the whole loop ends with
    that exception, the remaining batches unprocessed. In general the wait
    step raises exactly when the window left by the eviction is empty and
    the budget check fails. *)
Theorem oversized_batch_on_empty_window (L : Z) (env : nat -> BatchEnv) (i : nat)
    (batch : list StoryPayload) (batch_tokens : Z) (rest : list Batch) (st : State) :
  request_history st = [] →
  tokens_in_window st = 0 →
  L < batch_tokens →
  dispatch_batch L (env i) (batch, batch_tokens) st = Raise IndexError ∧
  dispatch_loop L env i ((batch, batch_tokens) :: rest) st = Raise IndexError ∧
  (∀ start, dispatch_loop L env 0 ((batch, batch_tokens) :: rest) (initial_state start)
            = Raise IndexError) ∧
  (∀ envb tokens' st' e,
     rate_limit_wait L envb tokens' st' = Raise e ↔
     e = IndexError ∧
     (evict (clock st' + gap envb) (request_history st') (tokens_in_window st')).1 = [] ∧
     L < (evict (clock st' + gap envb) (request_history st') (tokens_in_window st')).2
         + tokens').
Proof.
  intros Hempty Hzero Hover.
  assert (∀ e s, request_history s = [] → tokens_in_window s = 0 →
            dispatch_batch L e (batch, batch_tokens) s = Raise IndexError) as Hstep.
  { intros e s Hs Hs0. unfold dispatch_batch.
    assert (rate_limit_wait L e batch_tokens s = Raise IndexError) as ->; [|done].
    apply rate_limit_wait_raise. rewrite Hs, Hs0. simpl. split_and!; [done..|lia]. }
  split_and!.
  - by apply Hstep.
  - cbn -[dispatch_batch]. by rewrite Hstep.
  - intros start. cbn -[dispatch_batch]. by rewrite Hstep.
  - intros envb tokens' st' e. apply rate_limit_wait_raise.
Qed.

Lemma oversized_batch_on_empty_window_witness :
  dispatch_loop Config.LLM_TPM_LIMIT (λ _, one_second echo_engine) 0
    [([payload 0 "a very long story"], 300000); ([payload 1 "b"], 10)]
    (initial_state 0) = Raise IndexError.
Proof.
  apply (oversized_batch_on_empty_window Config.LLM_TPM_LIMIT (λ _, one_second echo_engine)
           0 [payload 0 "a very long story"] 300000 [([payload 1 "b"], 10)]
           (initial_state 0)).
  - reflexivity.
  - reflexivity.
  - vm_compute. reflexivity.
Defined.
End DispatcherFacts.

(** ** Assembler *)

Module AssemblerFacts.
Import Assembler AssemblerSpec.


Lemma insert_desc_hd x l a :
  HdRel desc a l → desc a x → HdRel desc a (insert_desc x l).
Proof.
  intros Hl Hx. destruct l as [|y l]; simpl; [by constructor|].
  destruct (text_len x <? text_len y)%nat; constructor; [|done].
  by apply HdRel_inv in Hl.
Qed.

Lemma insert_desc_sorted x l : Sorted desc l → Sorted desc (insert_desc x l).
Proof.
  induction 1 as [|y l Hl IH Hhd]; simpl; [by repeat constructor|].
  destruct (text_len x <? text_len y)%nat eqn:Hlt.
  - apply Nat.ltb_lt in Hlt. constructor; [done|].
    apply insert_desc_hd; [done|]. unfold desc. lia.
  - apply Nat.ltb_ge in Hlt. constructor; [by constructor|]. by constructor.
Qed.

Lemma sort_desc_sorted l : Sorted desc (sort_desc l).
Proof. induction l as [|x l IH]; simpl; [constructor|by apply insert_desc_sorted]. Qed.

(** A bucket that is already sorted is left as it is: the sort is stable. *)
Lemma sort_desc_fixed l : Sorted desc l → sort_desc l = l.
Proof.
  induction 1 as [|x l Hl IH Hhd]; [done|]. simpl. rewrite IH.
  destruct Hhd as [|y l Hxy]; [done|]. simpl.
  unfold desc in Hxy. by apply Nat.ltb_ge in Hxy as ->.
Qed.

Lemma sort_desc_idemp l : sort_desc (sort_desc l) = sort_desc l.
Proof. apply sort_desc_fixed, sort_desc_sorted. Qed.

Lemma insert_desc_perm x l : insert_desc x l ≡ₚ x :: l.
Proof.
  induction l as [|y l IH]; simpl; [done|].
  destruct (text_len x <? text_len y)%nat; [|done].
  rewrite IH. apply Permutation_swap.
Qed.

Lemma sort_desc_perm l : sort_desc l ≡ₚ l.
Proof.
  induction l as [|x l IH]; simpl; [done|]. by rewrite insert_desc_perm, IH.
Qed.

Lemma sort_desc_nil l : sort_desc l = [] ↔ l = [].
Proof.
  split; [|by intros ->]. intros Hnil.
  apply Permutation_nil_r. rewrite <-Hnil. symmetry. apply sort_desc_perm.
Qed.

Section Loop.
Variable all_llm_results : gmap Z Analysis.AnalysisResult.

Local Abbreviation settled := (AssemblerSpec.settled all_llm_results).
Local Abbreviation appended := (AssemblerSpec.appended all_llm_results).
Local Abbreviation ready := (AssemblerSpec.ready all_llm_results).

Lemma assemble_loop_spec uuid4 story_payloads : ∀ fa fs vis FA FS VIS,
  assemble_loop uuid4 all_llm_results story_payloads fa fs vis = Ok (FA, FS, VIS) →
  Forall ready story_payloads ∧
  FA = fa ++ concat (original_bucket <$> story_payloads) ∧
  VIS = vis ++ (settled <$> story_payloads) ∧
  without_story_id <$> FS = (without_story_id <$> fs) ++ omap appended story_payloads.
Proof.
  induction story_payloads as [|p rest IH]; intros fa fs vis FA FS VIS Hrun; simpl in Hrun.
  - injection Hrun as <- <- <-. simpl. by rewrite !app_nil_r.
  - unfold ready, settled, appended. simpl.
    destruct (all_llm_results !! story_index p) as [ar|] eqn:Hres; simpl.
    + destruct (sort_desc (original_bucket p)) as [|rep sorted] eqn:Hsort; [done|].
      apply IH in Hrun as (Hready & -> & -> & ->).
      split_and!.
      * constructor; [|done]. intros _ Hnil. rewrite Hnil in Hsort. done.
      * by rewrite <-app_assoc.
      * by rewrite <-app_assoc.
      * rewrite fmap_app, <-app_assoc. done.
    + apply IH in Hrun as (Hready & -> & -> & ->).
      split_and!; [|by rewrite <-app_assoc|by rewrite <-app_assoc|done].
      constructor; [|done]. intros Hsome. rewrite Hres in Hsome. by apply is_Some_None in Hsome.
Qed.

Lemma assemble_loop_total uuid4 story_payloads : ∀ fa fs vis,
  Forall ready story_payloads →
  ∃ out, assemble_loop uuid4 all_llm_results story_payloads fa fs vis = Ok out.
Proof.
  induction story_payloads as [|p rest IH]; intros fa fs vis Hready; simpl; [eauto|].
  apply Forall_cons in Hready as [Hp Hrest]. unfold ready in Hp.
  destruct (all_llm_results !! story_index p) as [ar|] eqn:Hres; [|by apply IH].
  destruct (sort_desc (original_bucket p)) as [|rep sorted] eqn:Hsort; [|by apply IH].
  apply (proj1 (sort_desc_nil _)) in Hsort. exfalso. apply Hp; [rewrite ?Hres; eauto|done].
Qed.

Lemma settled_index p : story_index (settled p) = story_index p.
Proof. unfold settled. by destruct (all_llm_results !! story_index p). Qed.

Lemma ready_settled p : ready p → ready (settled p).
Proof.
  unfold ready. rewrite settled_index. intros Hp Hsome. specialize (Hp Hsome).
  unfold settled. destruct Hsome as [ar ->]. simpl. by rewrite sort_desc_nil.
Qed.

Lemma appended_settled p : appended (settled p) = appended p.
Proof.
  unfold appended. rewrite settled_index. unfold settled.
  destruct (all_llm_results !! story_index p) as [ar|]; [|done].
  simpl. by rewrite sort_desc_idemp.
Qed.

Lemma settled_idemp p : settled (settled p) = settled p.
Proof.
  unfold settled at 1. rewrite settled_index. unfold settled.
  destruct (all_llm_results !! story_index p) as [ar|]; [|done].
  simpl. by rewrite sort_desc_idemp.
Qed.
End Loop.

(** C9 (idempotent assembly). When a run of the Assembler on the payloads
    and the result mapping returns, a second run returns too, whatever its
    fresh identifiers, both on the payload objects as the first run left
    them (buckets with a result sorted in place) and on an unchanged copy of
    the input; either way its story records are those of the first run in
    number, order and every field but [story_id], and it leaves the payloads
    as the first run did. *)
Theorem assembly_idempotent (uuid4 uuid4' : nat -> string)
    (all_llm_results : gmap Z Analysis.AnalysisResult)
    (story_payloads story_payloads' : list StoryPayload)
    (final_articles : list Article) (final_stories : list StoryRecord) :
  assemble uuid4 all_llm_results story_payloads
    = Ok (final_articles, final_stories, story_payloads') →
  (∃ final_articles' final_stories',
     assemble uuid4' all_llm_results story_payloads'
       = Ok (final_articles', final_stories', story_payloads') ∧
     without_story_id <$> final_stories' = without_story_id <$> final_stories) ∧
  (∃ final_stories',
     assemble uuid4' all_llm_results story_payloads
       = Ok (final_articles, final_stories', story_payloads') ∧
     without_story_id <$> final_stories' = without_story_id <$> final_stories).
Proof.
  unfold assemble. intros Hrun.
  apply assemble_loop_spec in Hrun as (Hready & HFA & HVIS & HFS). simpl in *.
  split.
  - destruct (assemble_loop_total all_llm_results uuid4' story_payloads' [] [] [])
      as [[[fa' fs'] vis'] Hrun'].
    { rewrite HVIS. apply Forall_fmap. eapply Forall_impl; [exact Hready|].
      intros p Hp. by apply ready_settled. }
    rewrite Hrun'. apply assemble_loop_spec in Hrun' as (_ & _ & HVIS' & HFS').
    simpl in *. exists fa', fs'. split.
    + do 2 f_equal. rewrite HVIS', HVIS, <-list_fmap_compose.
      apply list_fmap_ext. intros i p _. apply settled_idemp.
    + rewrite HFS', HFS, HVIS. clear.
      induction story_payloads as [|p rest IH]; [done|]. csimpl.
      rewrite appended_settled, IH. done.
  - destruct (assemble_loop_total all_llm_results uuid4' story_payloads [] [] [] Hready)
      as [[[fa' fs'] vis'] Hrun'].
    rewrite Hrun'. apply assemble_loop_spec in Hrun' as (_ & HFA' & HVIS' & HFS').
    simpl in *. exists fs'. split; [|congruence]. by rewrite HFA, HVIS, HFA', HVIS'.
Qed.

Lemma assembly_idempotent_witness :
  ∃ final_articles final_stories story_payloads',
    assemble (λ _, "id-1") one_result one_story
      = Ok (final_articles, final_stories, story_payloads') ∧
    ∃ final_articles' final_stories',
      assemble (λ _, "id-2") one_result story_payloads'
        = Ok (final_articles', final_stories', story_payloads') ∧
      without_story_id <$> final_stories' = without_story_id <$> final_stories.
Proof.
  eexists _, _, _. split; [vm_compute; reflexivity|].
  refine (proj1 (assembly_idempotent (λ _, "id-1") (λ _, "id-2") one_result one_story
                   _ _ _ _)).
  vm_compute. reflexivity.
Defined.

(** The run on the three articles: the longest text leads, the earliest
    non-null date is kept, the domains are unique and sorted, and the
    article output keeps the order the bucket had before the sort. *)
Example assemble_one_story :
  assemble (λ _, "id-1") one_result one_story
  = Ok (three_articles,
        [{| story_id := "id-1"; canonical_title := "Clinic expands";
            summary := Some "A clinic expands its services.";
            sentiment := Some "Neutral"; key_entities := Some ["Clinic"];
            suggested_category := Some "Healthcare Services";
            first_seen_at := Some "2024-01-01";
            article_ids := ["a2"; "a1"; "a3"];
            source_domains := ["a.example"; "b.example"];
            article_count := 3 |}],
        settled one_result <$> one_story).
Proof. vm_compute. reflexivity. Qed.
End AssemblerFacts.

(** ** Engine selection *)

Module ConfigFacts.
Import Config.

(** C3, evaluated on the code. Selected by name and called the way the
    Dispatcher calls an engine, with the keyword [batch_input_json], the mock
    engine is never run: its only parameter is [article_text], the call
    raises [TypeError], and [analyze_article] returns an error dict. The
    Dispatcher sees a value that is not a list and skips the batch. *)
Theorem mock_engine_rejects_batch_input (GEMINI_API_KEY : option string)
    (gemini_call : string -> Returned) (r1 r2 : nat) (batch_input_string : string) :
  analyze_article GEMINI_API_KEY gemini_call r1 r2 "mock"
    [("batch_input_json", batch_input_string)]
  = RDict [("error",
            VStr "mock_analysis_engine() got an unexpected keyword argument 'batch_input_json'")] ∧
  dispatcher_call GEMINI_API_KEY gemini_call r1 r2 "mock" batch_input_string
  = Analysis.ReturnsOther.
Proof. split; reflexivity. Qed.

(** Called with its own parameter, the mock engine returns one dict of
    [llm_]-prefixed keys, not a list keyed by [story_index], and its value
    depends on the draws of [random]. *)
Lemma mock_engine_direct (article_text : string) :
  (∀ r1 r2, fst <$> mock_analysis_engine r1 r2 article_text
            = ["llm_canonical_title"; "llm_summary"; "llm_sentiment";
               "llm_key_entities"; "llm_suggested_category"]) ∧
  mock_analysis_engine 0 0 article_text ≠ mock_analysis_engine 1 0 article_text.
Proof. split; [done|]. intros H. discriminate H. Qed.

(** The engine the run selects, [gemini], takes [batch_input_json]. *)
Lemma gemini_engine_accepts_batch_input (key : string) (gemini_call : string -> Returned)
    (r1 r2 : nat) (batch_input_string : string) :
  key ≠ "" →
  analyze_article (Some key) gemini_call r1 r2 "gemini"
    [("batch_input_json", batch_input_string)]
  = gemini_call batch_input_string.
Proof. intros Hkey. destruct key; [done|]. reflexivity. Qed.
End ConfigFacts.

(** ** The run, stages 3 to 5 *)

Module PipelineFacts.
Import Pipeline.

Lemma make_payloads_buckets (story_clusters : list (list Article)) :
  original_bucket <$> Batcher.make_payloads story_clusters = story_clusters.
Proof.
  unfold Batcher.make_payloads.
  assert (∀ (f : nat → list Article → StoryPayload) cs,
            (∀ i b, original_bucket (f i b) = b) → original_bucket <$> imap f cs = cs)
    as Himap.
  { intros f cs. revert f. induction cs as [|c cs IH]; intros f Hf; [done|].
    rewrite imap_cons, fmap_cons, Hf. f_equal. apply IH. intros i b. apply Hf. }
  by apply Himap.
Qed.

Lemma cluster_perm sim (all_scraped_data : list Article) :
  concat (cluster sim all_scraped_data) ≡ₚ all_scraped_data.
Proof.
  unfold cluster. destruct all_scraped_data as [|a l]; [done|]. simpl truthy. cbv iota.
  apply ClustererFacts.cluster_stories_perm.
Qed.

(** C1, as the specification states it, fails. Three articles are
    gathered and form one story; the engine returns an error dict for its
    batch; the run completes and writes neither file. *)
Lemma article_file_missing :
  run (λ _ _, 1%Q) count_chars 0 (λ _, one_second error_engine) (λ _, "id") three_articles
  = Ok {| output_articles := None; output_stories := None |}.
Proof. vm_compute. reflexivity. Qed.

(** C1, amended. A run that completes writes its two files together,
    and exactly when stage 4 produced at least one story record: then the
    story file holds the records and the article file holds every gathered
    article, those of stories without a result included; with no story
    record, neither file is written. *)
Theorem outputs_follow_story_records (sim : nat -> nat -> Q)
    (encode_len : string -> option Z) (start : Q) (env : nat -> Dispatcher.BatchEnv)
    (uuid4 : nat -> string) (all_scraped_data : list Article) (out : Outputs) :
  run sim encode_len start env uuid4 all_scraped_data = Ok out →
  ∃ final_articles final_stories,
    analyze_stories encode_len start env uuid4 (cluster sim all_scraped_data)
      = Ok (final_articles, final_stories) ∧
    (final_stories ≠ [] →
       out = {| output_articles := Some final_articles;
                output_stories := Some final_stories |} ∧
       final_articles ≡ₚ all_scraped_data) ∧
    (final_stories = [] →
       out = {| output_articles := None; output_stories := None |}).
Proof.
  unfold run. intros Hrun.
  destruct (analyze_stories _ _ _ _ _) as [[fa fs]|e] eqn:Hstage; [|done].
  simpl in Hrun. injection Hrun as <-. exists fa, fs. split; [done|].
  split; [|by intros ->].
  intros Hfs. split; [by destruct fs|].
  unfold analyze_stories in Hstage.
  destruct (truthy (cluster sim all_scraped_data)); [|by injection Hstage as <- <-].
  destruct (Batcher.create_batches _ _ _) as [bs|]; [|done]. simpl in Hstage.
  destruct (Dispatcher.dispatch_loop _ _ _ _ _) as [st|]; [|done]. simpl in Hstage.
  case_bool_decide; [|by injection Hstage as <- <-].
  destruct (Assembler.assemble _ _ _) as [[[fa' fs'] ps']|] eqn:Hasm; [|done].
  simpl in Hstage. injection Hstage as <- <-.
  apply AssemblerFacts.assemble_loop_spec in Hasm as (_ & -> & _ & _).
  simpl. rewrite make_payloads_buckets. apply cluster_perm.
Qed.

Lemma outputs_follow_story_records_witness :
  ∃ out,
    run (λ _ _, 1%Q) count_chars 0 (λ _, one_second echo_engine) (λ _, "id") three_articles
      = Ok out ∧
    ∃ final_articles final_stories,
      analyze_stories count_chars 0 (λ _, one_second echo_engine) (λ _, "id")
        (cluster (λ _ _, 1%Q) three_articles) = Ok (final_articles, final_stories) ∧
      (final_stories ≠ [] →
         out = {| output_articles := Some final_articles;
                  output_stories := Some final_stories |} ∧
         final_articles ≡ₚ three_articles) ∧
      (final_stories = [] →
         out = {| output_articles := None; output_stories := None |}).
Proof.
  eexists. split; [vm_compute; reflexivity|].
  apply (outputs_follow_story_records (λ _ _, 1%Q) count_chars 0
           (λ _, one_second echo_engine) (λ _, "id") three_articles).
  vm_compute. reflexivity.
Defined.

(** Some stories analysed, some not: both files are written, and the
    article file holds the articles of the story without a result too. *)
Example partial_failure :
  ∃ stories,
    run (sim3 (1#10) (1#10) (1#10)) count_chars 0
      (λ _, {| Dispatcher.gap := 1; Dispatcher.oversleep := 0; Dispatcher.latency := 0;
               Dispatcher.analyze := λ _, Analysis.ReturnsList [analysis_of 1] |})
      (λ _, "id") three_articles
    = Ok {| output_articles := Some three_articles; output_stories := Some stories |} ∧
    length stories = 1%nat.
Proof. eexists. split; [vm_compute; reflexivity|]. reflexivity. Qed.

(** One story whose text alone exceeds [LLM_TPM_LIMIT] tokens ends the run
    with the [IndexError] of the wait step. *)
Example oversized_story_aborts_run :
  run (λ _ _, 1%Q) (λ _, Some 300000) 0 (λ _, one_second echo_engine) (λ _, "id")
    three_articles
  = Raise IndexError.
Proof. vm_compute. reflexivity. Qed.
End PipelineFacts.

(** * Further properties of the code *)

(** ** Clusterer: shape of the buckets *)

Module ClustererMore.
Import Clusterer ClustererSpec ClustererFacts.

Lemma StronglySorted_lt_seq (j n : nat) : StronglySorted lt (seq j n).
Proof.
  revert j. induction n as [|n IH]; intros j; simpl; constructor; [apply IH|].
  apply Forall_forall. intros k Hk. apply elem_of_seq in Hk. lia.
Qed.

Lemma StronglySorted_filter {A} (R : relation A) (P : A → Prop)
    `{!∀ x, Decision (P x)} (l : list A) :
  StronglySorted R l → StronglySorted R (filter P l).
Proof.
  induction 1 as [|x l Hl IH Hx]; [constructor|].
  rewrite filter_cons. destruct (decide (P x)); [|done].
  constructor; [done|]. apply Forall_forall. intros y Hy.
  apply list_elem_of_filter in Hy as [_ Hy]. by eapply Forall_forall in Hx.
Qed.

Lemma elem_of_list_join {A} (x : A) (ls : list (list A)) :
  x ∈ concat ls ↔ ∃ l, x ∈ l ∧ l ∈ ls.
Proof.
  induction ls as [|l0 ls IH]; simpl.
  - split; [by intros ?%elem_of_nil|]. by intros (l & _ & ?%elem_of_nil).
  - rewrite elem_of_app, IH. split.
    + intros [?|(l & ? & ?)]; [exists l0; split; [done|by left]|].
      exists l. split; [done|by right].
    + intros (l & Hx & [->|?]%elem_of_cons); [by left|]. right. by exists l.
Qed.

Section Greedy.
Variable sim : nat -> nat -> Q.
Variable τ : Q.

(** The seeds grow along the list of clusters. *)
Lemma seed_rule_seeds_increase n (cs : list (list nat)) p q c d s t :
  seed_rule sim τ n cs → (p < q)%nat →
  cs !! p = Some c → cs !! q = Some d → head c = Some s → head d = Some t →
  (s < t)%nat.
Proof.
  intros Hrule Hpq Hp Hq Hs Ht.
  destruct (Hrule p c Hp) as (s' & _ & _ & Hbefore & ->).
  destruct (Hrule q d Hq) as (t' & _ & Hnot & _ & ->).
  simpl in Hs, Ht. injection Hs as ->. injection Ht as ->.
  assert (s ∈ concat (take q cs)) as Hin.
  { apply elem_of_list_join. exists (s :: filter (λ j, (j ∉ concat (take p cs)) ∧ (τ <= sim s j)%Q) (seq (S s) (n - S s))).
    split; [by left|]. apply list_elem_of_lookup. exists p. by rewrite lookup_take_lt. }
  destruct (decide (s < t)%nat) as [|Hge]; [done|]. exfalso.
  destruct (decide (t = s)) as [->|Hne]; [done|].
  apply Hnot. assert (t ∈ concat (take p cs)) as Ht by (apply Hbefore; lia).
  apply elem_of_list_join in Ht as (l & Hl & Hlp).
  apply elem_of_list_join. exists l. split; [done|].
  apply list_elem_of_lookup in Hlp as [i Hi].
  apply lookup_take_Some in Hi as [Hi Hip].
  apply list_elem_of_lookup. exists i. rewrite lookup_take_lt by lia. done.
Qed.
End Greedy.

Lemma cluster_stories_nonempty (sim : nat -> nat -> Q) (τ : Q) (articles : list Article) :
  Forall (λ bucket, bucket ≠ []) (cluster_stories sim τ articles).
Proof.
  rewrite cluster_stories_indices. apply Forall_fmap, Forall_lookup. intros p c Hp.
  destruct (cluster_indices_seed_rule sim τ (length articles) p c Hp) as (s & _ & _ & _ & ->).
  done.
Qed.

(** Every bucket holds at least one article, there are at most as many
    buckets as articles, the articles of a bucket keep their input order,
    and the buckets come in the order of their first articles. *)
Theorem buckets_nonempty_and_ordered (sim : nat -> nat -> Q) (τ : Q) (articles : list Article) :
  let cs := cluster_indices sim τ (length articles) in
  cluster_stories sim τ articles
    = (λ c : list nat, (λ k : nat, articles !!! k) <$> c) <$> cs ∧
  Forall (λ bucket, bucket ≠ []) (cluster_stories sim τ articles) ∧
  (length (cluster_stories sim τ articles) <= length articles)%nat ∧
  Forall (λ c, StronglySorted lt c) cs ∧
  StronglySorted lt (omap head cs).
Proof.
  intros cs. pose proof (cluster_indices_seed_rule sim τ (length articles)) as Hrule.
  fold cs in Hrule.
  destruct (cluster_indices_partition sim τ (length articles)) as [Hnd Hcover]. fold cs in Hnd, Hcover.
  assert (Forall (λ c : list nat, c ≠ []) cs) as Hne.
  { apply Forall_lookup. intros p c Hp. destruct (Hrule p c Hp) as (s & _ & _ & _ & ->). done. }
  split_and!.
  - apply cluster_stories_indices.
  - rewrite cluster_stories_indices. fold cs. apply Forall_fmap.
    eapply Forall_impl; [exact Hne|]. intros c Hc. simpl. by destruct c.
  - rewrite cluster_stories_indices, length_fmap. fold cs.
    assert (length cs <= length (concat cs))%nat as Hlen.
    { clear -Hne. induction Hne as [|c cs Hc _ IH]; simpl; [lia|].
      rewrite length_app. destruct c; [done|]. simpl. lia. }
    assert (length (concat cs) = length articles) as <-; [|done].
    transitivity (length (seq 0 (length articles))); [|apply length_seq].
    apply Permutation_length.
    apply NoDup_Permutation; [done|apply NoDup_seq|].
    intros k. rewrite Hcover, elem_of_seq. lia.
  - apply Forall_lookup. intros p c Hp. destruct (Hrule p c Hp) as (s & _ & _ & _ & ->).
    constructor.
    + apply StronglySorted_filter, StronglySorted_lt_seq.
    + apply Forall_forall. intros j Hj. apply list_elem_of_filter in Hj as [_ Hj].
      apply elem_of_seq in Hj. lia.
  - assert (∀ p q s t, (p < q)%nat → omap head cs !! p = Some s →
              omap head cs !! q = Some t → (s < t)%nat) as Hinc.
    { assert (omap head cs = default 0%nat ∘ head <$> cs) as ->.
      { clear -Hne. induction Hne as [|c cs Hc _ IH]; [done|]. csimpl.
        destruct c; [done|]. simpl. by rewrite IH. }
      intros p q s t Hpq Hp Hq. rewrite list_lookup_fmap in Hp, Hq.
      destruct (cs !! p) as [c|] eqn:Hcp; [|done].
      destruct (cs !! q) as [d|] eqn:Hcq; [|done].
      simpl in Hp, Hq. injection Hp as <-. injection Hq as <-.
      destruct (Hrule p c Hcp) as (s & _ & _ & _ & Hc).
      destruct (Hrule q d Hcq) as (t & _ & _ & _ & Hd).
      eapply (seed_rule_seeds_increase sim τ _ cs p q c d); try done.
      - by rewrite Hc.
      - by rewrite Hd. }
    revert Hinc. generalize (omap head cs). intros l.
    induction l as [|x l IH]; intros Hinc; constructor.
    + apply IH. intros p q s t Hpq Hp Hq. apply (Hinc (S p) (S q)); [lia|done..].
    + apply Forall_lookup. intros i y Hy. apply (Hinc 0%nat (S i)); [lia|done..].
Qed.

Lemma scan_later_ext (sim sim' : nat -> nat -> Q) (τ τ' : Q) i js : ∀ visited cur,
  (∀ j, j ∈ js → ((τ <= sim i j)%Q ↔ (τ' <= sim' i j)%Q)) →
  scan_later sim τ i js visited cur = scan_later sim' τ' i js visited cur.
Proof.
  induction js as [|j js IH]; intros visited cur Hsame; [done|]. simpl.
  assert (bool_decide (τ <= sim i j)%Q = bool_decide (τ' <= sim' i j)%Q) as ->.
  { apply bool_decide_ext, Hsame. by left. }
  destruct (_ && _); apply IH; intros k Hk; apply Hsame; by right.
Qed.

Lemma seed_loop_ext (sim sim' : nat -> nat -> Q) (τ τ' : Q) n todo : ∀ visited clusters,
  (∀ i j, i ∈ todo → (i < j < n)%nat → ((τ <= sim i j)%Q ↔ (τ' <= sim' i j)%Q)) →
  seed_loop sim τ n todo visited clusters = seed_loop sim' τ' n todo visited clusters.
Proof.
  induction todo as [|i todo IH]; intros visited clusters Hsame; [done|]. simpl.
  assert (∀ v c, seed_loop sim τ n todo v c = seed_loop sim' τ' n todo v c) as Hrest.
  { intros v c. apply IH. intros i' j Hi'. apply Hsame. by right. }
  destruct (is_visited visited i); [apply Hrest|].
  rewrite (scan_later_ext sim sim' τ τ').
  - destruct (scan_later _ _ _ _ _ _). apply Hrest.
  - intros j Hj. apply elem_of_seq in Hj. apply Hsame; [by left|lia].
Qed.

(** The loop reads [similarity_matrix[i][j]] for [i < j] only: two
    matrices whose entries above the diagonal pass the threshold test alike
    give the same buckets, whatever their diagonals and lower triangles. *)
Theorem only_upper_triangle_is_read (sim sim' : nat -> nat -> Q) (τ τ' : Q)
    (articles : list Article) :
  (∀ i j, (i < j < length articles)%nat → ((τ <= sim i j)%Q ↔ (τ' <= sim' i j)%Q)) →
  cluster_stories sim τ articles = cluster_stories sim' τ' articles.
Proof.
  intros Hsame. rewrite !cluster_stories_indices. f_equal.
  apply seed_loop_ext. intros i j _. apply Hsame.
Qed.

Lemma only_upper_triangle_is_read_witness :
  (∀ i j, (i < j < length three_articles)%nat →
     ((6#10 <= sim3 (9#10) (1#10) (1#10) i j)%Q ↔
      (1#2 <= (λ i j, if (i <? j)%nat then sim3 (9#10) (1#10) (1#10) i j else 0%Q) i j)%Q)) ∧
  cluster_stories (sim3 (9#10) (1#10) (1#10)) (6#10) three_articles
  = cluster_stories (λ i j, if (i <? j)%nat then sim3 (9#10) (1#10) (1#10) i j else 0%Q)
      (1#2) three_articles.
Proof.
  assert (∀ i j, (i < j < length three_articles)%nat →
     ((6#10 <= sim3 (9#10) (1#10) (1#10) i j)%Q ↔
      (1#2 <= (λ i j, if (i <? j)%nat then sim3 (9#10) (1#10) (1#10) i j else 0%Q) i j)%Q))
    as Hsame.
  { intros i j Hij. simpl in Hij.
    destruct i as [|[|[|i]]], j as [|[|[|j]]]; try lia; simpl; split; intros H;
      vm_compute in H |- *; done. }
  split; [exact Hsame|].
  exact (only_upper_triangle_is_read _ _ _ _ three_articles Hsame).
Defined.

Lemma filter_none {A} (P : A → Prop) `{!∀ x, Decision (P x)} (l : list A) :
  (∀ x, x ∈ l → ¬ P x) → filter P l = [].
Proof.
  induction l as [|x l IH]; intros Hno; [done|].
  rewrite filter_cons_False by (apply Hno; by left).
  apply IH. intros y Hy. apply Hno. by right.
Qed.

Lemma filter_all {A} (P : A → Prop) `{!∀ x, Decision (P x)} (l : list A) :
  (∀ x, x ∈ l → P x) → filter P l = l.
Proof.
  induction l as [|x l IH]; intros Hall; [done|].
  rewrite filter_cons_True by (apply Hall; by left).
  f_equal. apply IH. intros y Hy. apply Hall. by right.
Qed.

Section Extremes.
Variable sim : nat -> nat -> Q.
Variable τ : Q.

Lemma seed_loop_all_visited n todo visited clusters :
  (∀ i, i ∈ todo → is_visited visited i = true) →
  seed_loop sim τ n todo visited clusters = clusters.
Proof.
  revert clusters. induction todo as [|i todo IH]; intros clusters Hvis; [done|]. simpl.
  rewrite Hvis by by left. apply IH. intros j Hj. apply Hvis. by right.
Qed.

Lemma seed_loop_singletons n : ∀ m k visited clusters,
  (k + m = n)%nat → length visited = n →
  (∀ j, is_visited visited j = true ↔ (j < k)%nat) →
  (∀ i j, (i < j < n)%nat → ¬ (τ <= sim i j)%Q) →
  seed_loop sim τ n (seq k m) visited clusters
  = clusters ++ ((λ i : nat, [i]) <$> seq k m).
Proof.
  induction m as [|m IH]; intros k visited clusters Hkm Hlen Hvis Hfar; simpl.
  - by rewrite app_nil_r.
  - assert (is_visited visited k = false) as ->.
    { apply not_true_iff_false. rewrite Hvis. lia. }
    destruct (scan_later_spec sim τ k (seq (S k) (n - S k)) (<[k:=true]> visited) [k])
      as (v' & -> & Hlen' & Hvis').
    { apply NoDup_seq. }
    { apply Forall_forall. intros j Hj. apply elem_of_seq in Hj.
      rewrite length_insert. lia. }
    assert (filter (joins sim τ (<[k:=true]> visited) k) (seq (S k) (n - S k)) = []) as Hnone.
    { apply filter_none. intros j Hj [_ Hsim]. apply elem_of_seq in Hj.
      apply (Hfar k j); [lia|done]. }
    rewrite Hnone in Hvis' |- *. rewrite app_nil_r.
    rewrite IH; [rewrite <-app_assoc; reflexivity|lia| | |done].
    + by rewrite Hlen', length_insert.
    + intros j. rewrite Hvis', is_visited_insert, Hvis. split.
      * intros [[?|[<- _]]|?%elem_of_nil]; [lia|lia|done].
      * intros Hj. left. destruct (decide (j = k)) as [->|]; [right; split; [done|lia]|].
        left. lia.
Qed.
End Extremes.

(** When no article reaches the threshold with any later article, every
    article is a bucket of its own, in input order. *)
Theorem dissimilar_articles_stay_apart (sim : nat -> nat -> Q) (τ : Q)
    (articles : list Article) :
  (∀ i j, (i < j < length articles)%nat → ¬ (τ <= sim i j)%Q) →
  cluster_stories sim τ articles = (λ article : Article, [article]) <$> articles.
Proof.
  intros Hfar. rewrite cluster_stories_indices. unfold cluster_indices.
  rewrite (seed_loop_singletons sim τ (length articles) (length articles) 0 _ []);
    [|lia|apply length_replicate| |done].
  - simpl. rewrite <-list_fmap_compose.
    trans ((λ article : Article, [article])
             <$> ((λ k : nat, articles !!! k) <$> seq 0 (length articles)));
      [|by rewrite lookup_total_seq].
    by rewrite <-list_fmap_compose.
  - intros j. unfold is_visited. destruct (replicate _ _ !! j) as [b|] eqn:Hb; simpl.
    + apply lookup_replicate in Hb as [-> _]. split; [done|lia].
    + split; [done|lia].
Qed.

Lemma dissimilar_articles_stay_apart_witness :
  (∀ i j, (i < j < length three_articles)%nat →
     ¬ (6#10 <= sim3 (1#10) (2#10) (3#10) i j)%Q) ∧
  cluster_stories (sim3 (1#10) (2#10) (3#10)) (6#10) three_articles
  = (λ article : Article, [article]) <$> three_articles.
Proof.
  assert (∀ i j, (i < j < length three_articles)%nat →
     ¬ (6#10 <= sim3 (1#10) (2#10) (3#10) i j)%Q) as Hfar.
  { intros i j Hij. simpl in Hij.
    destruct i as [|[|[|i]]], j as [|[|[|j]]]; try lia; simpl; intros H;
      vm_compute in H; done. }
  split; [exact Hfar|].
  exact (dissimilar_articles_stay_apart _ _ three_articles Hfar).
Defined.

(** When every later article reaches the threshold with the first one,
    there is one bucket, made of all articles in input order, whatever the
    similarities among the later articles. *)
Theorem all_similar_to_first_share_a_bucket (sim : nat -> nat -> Q) (τ : Q)
    (articles : list Article) :
  articles ≠ [] →
  (∀ j, (0 < j < length articles)%nat → (τ <= sim 0%nat j)%Q) →
  cluster_stories sim τ articles = [articles].
Proof.
  intros Hne Hnear. rewrite cluster_stories_indices.
  assert (cluster_indices sim τ (length articles) = [seq 0 (length articles)]) as ->.
  { destruct articles as [|a l]; [done|]. simpl length in *. set (n := S (length l)) in *.
    unfold cluster_indices. change (seq 0 n) with (0%nat :: seq 1 (length l)).
    cbn [seed_loop]. change (is_visited (replicate n false) 0) with false. cbv iota.
    destruct (scan_later_spec sim τ 0 (seq 1 (n - 1)) (<[0%nat:=true]> (replicate n false)) [0%nat])
      as (v' & -> & Hlen' & Hvis').
    { apply NoDup_seq. }
    { apply Forall_forall. intros j Hj. apply elem_of_seq in Hj.
      rewrite length_insert, length_replicate. lia. }
    assert (filter (joins sim τ (<[0%nat:=true]> (replicate n false)) 0) (seq 1 (n - 1))
            = seq 1 (n - 1)) as Hall.
    { apply filter_all. intros j Hj. apply elem_of_seq in Hj. split; [|apply Hnear; lia].
      unfold is_visited. rewrite list_lookup_insert_ne by lia.
      rewrite lookup_replicate_2 by lia. done. }
    rewrite Hall in Hvis' |- *.
    rewrite seed_loop_all_visited.
    - simpl. do 3 f_equal. unfold n. simpl. by rewrite Nat.sub_0_r.
    - intros i Hi. apply Hvis'. right. unfold n. simpl. by rewrite Nat.sub_0_r. }
  simpl. by rewrite lookup_total_seq.
Qed.

Lemma all_similar_to_first_share_a_bucket_witness :
  three_articles ≠ [] ∧
  (∀ j, (0 < j < length three_articles)%nat →
     (6#10 <= sim3 (9#10) (7#10) (0#10) 0%nat j)%Q) ∧
  cluster_stories (sim3 (9#10) (7#10) (0#10)) (6#10) three_articles = [three_articles].
Proof.
  assert (∀ j, (0 < j < length three_articles)%nat →
     (6#10 <= sim3 (9#10) (7#10) (0#10) 0%nat j)%Q) as Hnear.
  { intros j Hj. simpl in Hj. destruct j as [|[|[|j]]]; try lia; vm_compute; done. }
  split; [done|]. split; [exact Hnear|].
  apply (all_similar_to_first_share_a_bucket _ _ three_articles); [done|exact Hnear].
Defined.
End ClustererMore.

(** ** Payloads and batches *)

Module BatcherMore.
Import Batcher BatcherSpec BatcherFacts.

(** The payload built for the bucket at position [k] carries [k] as its
    [story_index], the bucket itself and the text joined from it; so the
    payloads are as many as the buckets and no two share a [story_index]. *)
Theorem payload_keys_are_positions (story_clusters : list (list Article)) :
  length (make_payloads story_clusters) = length story_clusters ∧
  (∀ k p, make_payloads story_clusters !! k = Some p →
     story_index p = Z.of_nat k ∧
     story_clusters !! k = Some (original_bucket p) ∧
     text_for_llm p = combined_text (original_bucket p)) ∧
  NoDup (story_index <$> make_payloads story_clusters).
Proof.
  assert (∀ k p, make_payloads story_clusters !! k = Some p →
     story_index p = Z.of_nat k ∧
     story_clusters !! k = Some (original_bucket p) ∧
     text_for_llm p = combined_text (original_bucket p)) as Hlook.
  { intros k p. unfold make_payloads. rewrite list_lookup_imap.
    destruct (story_clusters !! k) as [b|]; [|done]. simpl. by intros [= <-]. }
  split_and!; [apply length_imap|done|].
  apply NoDup_alt. intros i j x. rewrite !list_lookup_fmap.
  destruct (make_payloads story_clusters !! i) as [p|] eqn:Hp; [|done].
  destruct (make_payloads story_clusters !! j) as [q|] eqn:Hq; [|done].
  simpl. intros [= <-] [= Heq].
  apply Hlook in Hp as [Hp _]. apply Hlook in Hq as [Hq _]. lia.
Qed.

(** A relation between every element of a list and its successor. *)
Lemma adjacent_snoc {A} (R : A → A → Prop) (l : list A) (x : A) :
  (∀ i a b, l !! i = Some a → l !! S i = Some b → R a b) →
  (∀ y, last l = Some y → R y x) →
  ∀ i a b, (l ++ [x]) !! i = Some a → (l ++ [x]) !! S i = Some b → R a b.
Proof.
  intros Hl Hlast i a b Ha Hb.
  apply lookup_app_Some in Hb as [Hb|[Hge Hb]].
  - rewrite lookup_app_l in Ha by (apply lookup_lt_Some in Hb; lia). by eapply Hl.
  - apply list_lookup_singleton_Some in Hb as [Hi <-].
    rewrite lookup_app_l in Ha by lia. apply Hlast.
    rewrite last_lookup. by replace (pred (length l)) with i by lia.
Qed.

Section Greedy.
Variable encode_len : string -> option Z.
Variable C : Z.

(** The batch [b] was closed because the first payload of [b'] did not fit. *)
Let closed_for (b b' : Batch) : Prop :=
  ∃ p n, head b'.1 = Some p ∧ encode_len (text_for_llm p) = Some n ∧ C < b.2 + n.

Lemma batch_loop_full story_payloads : ∀ acc cur t bs,
  batch_loop encode_len C story_payloads acc cur t = Ok bs →
  (∀ i a b, acc !! i = Some a → acc !! S i = Some b → closed_for a b) →
  (∀ y, last acc = Some y → cur ≠ [] ∧ closed_for y (cur, t)) →
  ∀ i a b, bs !! i = Some a → bs !! S i = Some b → closed_for a b.
Proof.
  induction story_payloads as [|p rest IH]; intros acc cur t bs Hrun Hacc Hcur; simpl in Hrun.
  - destruct cur as [|q cur]; simpl in Hrun; injection Hrun as <-; [done|].
    apply adjacent_snoc; [done|]. intros y Hy. by apply Hcur.
  - unfold tokenize in Hrun. destruct (encode_len (text_for_llm p)) as [n|] eqn:Hn; [|done].
    simpl in Hrun. destruct (truthy cur && bool_decide (C < t + n)) eqn:Hflush.
    + apply andb_prop in Hflush as [Hne Hover]. apply bool_decide_eq_true in Hover.
      eapply IH; [exact Hrun| |].
      * apply adjacent_snoc; [done|]. intros y Hy. by apply Hcur.
      * intros y Hy. rewrite last_snoc in Hy. injection Hy as <-.
        split; [done|]. exists p, n. done.
    + eapply IH; [exact Hrun|done|].
      intros y Hy. destruct (Hcur y Hy) as [Hne (q & m & Hq & Hm & Hover)].
      split; [by destruct cur|]. exists q, m. split_and!; [|done..].
      simpl in *. by destruct cur.
Qed.

Lemma batch_loop_fits story_payloads ns : ∀ acc cur t,
  Forall2 (λ p n, encode_len (text_for_llm p) = Some n) story_payloads ns →
  Forall (λ n, 0 <= n) ns →
  t + foldr Z.add 0 ns <= C →
  batch_loop encode_len C story_payloads acc cur t
  = Ok (if truthy (cur ++ story_payloads)
        then acc ++ [(cur ++ story_payloads, t + foldr Z.add 0 ns)] else acc).
Proof.
  intros acc cur t Hall. revert acc cur t.
  induction Hall as [|p n ps ns Hp Hall IH]; intros acc cur t Hpos Hfit; simpl.
  - rewrite app_nil_r, Z.add_0_r. done.
  - apply Forall_cons in Hpos as [Hn Hpos]. simpl in Hfit.
    unfold tokenize. rewrite Hp. simpl.
    assert (0 <= foldr Z.add 0 ns) as Hsum.
    { clear -Hpos. induction Hpos; simpl; lia. }
    rewrite (bool_decide_eq_false_2 (C < t + n)) by lia. rewrite andb_false_r.
    rewrite IH by (done || lia). rewrite <-app_assoc. simpl.
    replace (t + n + foldr Z.add 0 ns) with (t + (n + foldr Z.add 0 ns)) by lia. done.
Qed.
End Greedy.

(** Batches are filled greedily: whenever a batch is followed by another,
    the first payload of the follower did not fit, that is, its token count
    added to the token count of the closed batch exceeds the ceiling. *)
Theorem closed_batch_could_not_take_next (encode_len : string -> option Z) (C : Z)
    (story_payloads : list StoryPayload) (bs : list Batch) :
  create_batches encode_len C story_payloads = Ok bs →
  ∀ i b b', bs !! i = Some b → bs !! S i = Some b' →
    ∃ p n, head b'.1 = Some p ∧ encode_len (text_for_llm p) = Some n ∧ C < b.2 + n.
Proof.
  intros Hrun. eapply batch_loop_full; [exact Hrun|done|done].
Qed.

Lemma closed_batch_could_not_take_next_witness :
  ∃ p n, head ([payload 4 "e"], 12000).1 = Some p ∧
         (λ _ : string, Some 12000) (text_for_llm p) = Some n ∧
         50000 < ([payload 0 "a"; payload 1 "b"; payload 2 "c"; payload 3 "d"], 48000).2 + n.
Proof.
  apply (closed_batch_could_not_take_next (λ _, Some 12000) 50000 five_payloads
           [([payload 0 "a"; payload 1 "b"; payload 2 "c"; payload 3 "d"], 48000);
            ([payload 4 "e"], 12000)] eq_refl 0%nat); reflexivity.
Defined.

(** Batching ends with an exception exactly when the tokenizer rejects the
    text of some payload, and the exception is the tokenizer's; otherwise a
    list of batches is returned. No batch is produced in part. *)
Theorem batching_fails_only_in_tokenizer (encode_len : string -> option Z) (C : Z)
    (story_payloads : list StoryPayload) (e : PyError) :
  create_batches encode_len C story_payloads = Raise e ↔
  e = TokenizerError ∧ ¬ Forall (tokenizable encode_len) story_payloads.
Proof.
  unfold create_batches.
  destruct (decide (Forall (tokenizable encode_len) story_payloads)) as [Hall|Hno].
  - destruct (batch_loop_total encode_len C story_payloads [] [] 0 Hall) as [bs ->].
    split; [done|]. by intros [_ ?].
  - rewrite (batch_loop_fatal encode_len C story_payloads [] [] 0 Hno).
    split; [intros [= <-]; by split|by intros [-> _]].
Qed.

(** Payloads whose token counts are not negative and sum to at most the
    ceiling are sent in one batch, which holds them all in order and
    carries their total. *)
Theorem payloads_within_ceiling_form_one_batch (encode_len : string -> option Z) (C : Z)
    (story_payloads : list StoryPayload) (ns : list Z) :
  story_payloads ≠ [] →
  Forall2 (λ p n, encode_len (text_for_llm p) = Some n) story_payloads ns →
  Forall (λ n, 0 <= n) ns →
  foldr Z.add 0 ns <= C →
  create_batches encode_len C story_payloads = Ok [(story_payloads, foldr Z.add 0 ns)].
Proof.
  intros Hne Hall Hpos Hfit. unfold create_batches.
  rewrite (batch_loop_fits encode_len C story_payloads ns) by (done || lia).
  simpl. by destruct story_payloads.
Qed.

Lemma payloads_within_ceiling_form_one_batch_witness :
  create_batches (λ _, Some 12000) 50000 [payload 0 "a"; payload 1 "b"; payload 2 "c"]
  = Ok [([payload 0 "a"; payload 1 "b"; payload 2 "c"], foldr Z.add 0 [12000; 12000; 12000])].
Proof.
  apply (payloads_within_ceiling_form_one_batch (λ _, Some 12000) 50000
           [payload 0 "a"; payload 1 "b"; payload 2 "c"] [12000; 12000; 12000]).
  - done.
  - repeat constructor.
  - repeat constructor; lia.
  - simpl. lia.
Defined.

(** There are at most as many batches as payloads, so at most one engine
    call per story, and no batch at all for no payload. *)
Theorem at_most_one_batch_per_payload (encode_len : string -> option Z) (C : Z)
    (story_payloads : list StoryPayload) (bs : list Batch) :
  create_batches encode_len C story_payloads = Ok bs →
  (length bs <= length story_payloads)%nat ∧ (story_payloads = [] → bs = []).
Proof.
  intros Hrun. apply batch_loop_ok in Hrun as [Hok Hcat]; [|constructor|].
  - simpl in Hcat. subst story_payloads. split.
    + clear -Hok. induction bs as [|[b t] bs IH]; [simpl; lia|].
      apply Forall_cons in Hok as [[Hb _] Hok]. specialize (IH Hok).
      csimpl. rewrite length_app. destruct b; [done|]. simpl. lia.
    + intros Hnil. destruct Hok as [|[b t] bs [Hb _] _]; [done|].
      simpl in *. destruct b; [done|]. done.
  - split; [apply counted_nil|simpl; lia].
Qed.

Lemma at_most_one_batch_per_payload_witness :
  ∃ bs, create_batches (λ _, Some 12000) 50000 five_payloads = Ok bs ∧
        (length bs <= length five_payloads)%nat ∧ (five_payloads = [] → bs = []).
Proof.
  eexists. split; [reflexivity|].
  exact (at_most_one_batch_per_payload (λ _, Some 12000) 50000 five_payloads _ eq_refl).
Defined.
End BatcherMore.

(** ** Dispatcher: exceptions, the window and the result mapping *)

Module DispatcherMore.
Import Dispatcher WindowSpec DispatcherSpec DispatcherFacts.

Section Loop.
Variable L : Z.

Lemma dispatch_batch_consistent env b st st' :
  tokens_in_window st = window_sum (request_history st) →
  dispatch_batch L env b st = Ok st' →
  tokens_in_window st' = window_sum (request_history st').
Proof.
  destruct b as [batch bt]. unfold dispatch_batch. intros Hcons.
  destruct (rate_limit_wait L env bt st) as [[[now h] t]|] eqn:Hwait; [|done].
  apply rate_limit_wait_spec in Hwait as (old & Heq & Htok).
  rewrite Heq, window_sum_app in Hcons. simpl.
  destruct (analyze env (llm_input_data batch)); intros [= <-]; simpl;
    rewrite ?window_sum_app; simpl; lia.
Qed.

Lemma dispatch_batch_raise env b st e :
  tokens_in_window st = window_sum (request_history st) →
  dispatch_batch L env b st = Raise e → e = IndexError ∧ L < b.2.
Proof.
  destruct b as [batch bt]. unfold dispatch_batch. intros Hcons.
  destruct (rate_limit_wait L env bt st) as [[[now h] t]|e'] eqn:Hwait.
  - simpl. by destruct (analyze env (llm_input_data batch)).
  - simpl. intros [= <-]. apply rate_limit_wait_raise in Hwait as (-> & Hnil & Hover).
    split; [done|]. simpl.
    destruct (evict_spec (clock st + gap env) (request_history st) (tokens_in_window st))
      as (old & Heq & _ & Htok & _).
    rewrite Hnil, app_nil_r in Heq. rewrite Htok, Hcons, Heq in Hover. lia.
Qed.

Lemma dispatch_loop_outcome env batches : ∀ i st,
  tokens_in_window st = window_sum (request_history st) →
  match dispatch_loop L env i batches st with
  | Ok st' => tokens_in_window st' = window_sum (request_history st')
  | Raise e => e = IndexError ∧ ∃ b, b ∈ batches ∧ L < b.2
  end.
Proof.
  induction batches as [|b rest IH]; intros i st Hcons; [done|]. cbn -[dispatch_batch].
  destruct (dispatch_batch L (env i) b st) as [st'|e] eqn:Hstep; cbn -[dispatch_batch].
  - apply dispatch_batch_consistent in Hstep; [|done].
    specialize (IH (S i) st' Hstep). destruct (dispatch_loop L env (S i) rest st'); [done|].
    destruct IH as (-> & b' & Hb' & Hover). split; [done|]. exists b'. split; [by right|done].
  - apply dispatch_batch_raise in Hstep as [-> Hover]; [|done].
    split; [done|]. exists b. split; [by left|done].
Qed.
End Loop.

(** The Dispatcher ends with an exception only through the [IndexError] of
    the wait step, and only when some batch alone exceeds the limit: when
    every batch has at most [L] tokens the loop processes them all, whatever
    the clock and the engine do, and leaves [tokens_in_window] equal to the
    sum of the token counts in the window. *)
Theorem dispatcher_aborts_only_on_oversized_batch (L : Z) (env : nat -> BatchEnv)
    (i : nat) (list_of_batches : list Batch) (st : State) :
  tokens_in_window st = window_sum (request_history st) →
  (∀ e, dispatch_loop L env i list_of_batches st = Raise e →
        e = IndexError ∧ ∃ b, b ∈ list_of_batches ∧ L < b.2) ∧
  (Forall (λ b : Batch, b.2 <= L) list_of_batches →
   ∃ st', dispatch_loop L env i list_of_batches st = Ok st' ∧
          tokens_in_window st' = window_sum (request_history st')).
Proof.
  intros Hcons. pose proof (dispatch_loop_outcome L env list_of_batches i st Hcons) as Hout.
  destruct (dispatch_loop L env i list_of_batches st) as [st'|e].
  - split; [done|]. intros _. by exists st'.
  - destruct Hout as (-> & b & Hb & Hover). split.
    + intros e [= <-]. split; [done|]. by exists b.
    + intros Hall. eapply Forall_forall in Hall; [|exact Hb]. simpl in Hall. lia.
Qed.

Lemma dispatcher_aborts_only_on_oversized_batch_witness :
  (∀ e, dispatch_loop 100 (λ _, one_second echo_engine) 0
          [([payload 0 "a"], 60); ([payload 1 "b"], 60)] (initial_state 0) = Raise e →
        e = IndexError ∧ ∃ b, b ∈ [([payload 0 "a"], 60); ([payload 1 "b"], 60)] ∧ 100 < b.2) ∧
  (Forall (λ b : Batch, b.2 <= 100) [([payload 0 "a"], 60); ([payload 1 "b"], 60)] →
   ∃ st', dispatch_loop 100 (λ _, one_second echo_engine) 0
            [([payload 0 "a"], 60); ([payload 1 "b"], 60)] (initial_state 0) = Ok st' ∧
          tokens_in_window st' = window_sum (request_history st')).
Proof.
  apply (dispatcher_aborts_only_on_oversized_batch 100 (λ _, one_second echo_engine) 0
           [([payload 0 "a"], 60); ([payload 1 "b"], 60)] (initial_state 0)).
  reflexivity.
Defined.

(** On a window in timestamp order, the eviction keeps exactly the entries
    not older than 60 seconds. *)
Lemma evict_filter now history tokens :
  StronglySorted earlier history →
  (evict now history tokens).1 = filter (λ e, ¬ (60 < now - e.1)%Q) history.
Proof.
  revert tokens. induction history as [|[ts tk] rest IH]; intros tokens Hsorted; [done|].
  apply StronglySorted_cons in Hsorted as [Hhd Hsorted]. simpl.
  rewrite filter_cons. simpl. case_bool_decide as Hold.
  - rewrite decide_False by tauto. by apply IH.
  - rewrite decide_True by done. simpl. f_equal. symmetry.
    apply ClustererMore.filter_all. intros [ts' tk'] Hin.
    eapply Forall_forall in Hhd; [|exact Hin]. unfold earlier in Hhd. simpl in *.
    intros Hold'. apply Hold. lra.
Qed.

Lemma rate_limit_wait_filter (L : Z) (env : BatchEnv) (batch_tokens : Z)
    (st : State) (now : Q) (history : list (Q * Z)) (tokens : Z) :
  (0 <= oversleep env)%Q →
  StronglySorted earlier (request_history st) →
  rate_limit_wait L env batch_tokens st = Ok (now, history, tokens) →
  history = filter (λ e, ¬ (60 < now - e.1)%Q) (request_history st).
Proof.
  intros Hover Hsorted. unfold rate_limit_wait.
  pose proof (evict_filter (clock st + gap env) (request_history st) (tokens_in_window st)
                Hsorted) as Hfil.
  destruct (evict_spec (clock st + gap env) (request_history st) (tokens_in_window st))
    as (_ & _ & _ & _ & Hhead).
  destruct (evict _ (request_history st) _) as [h1 t1]. simpl in Hfil, Hhead.
  case_bool_decide as Hfull.
  - destruct h1 as [|[ts0 tk0] h1]; [done|].
    specialize (Hhead _ _ eq_refl). simpl in Hhead.
    case_bool_decide as Hneg; [done|].
    match goal with |- context [evict ?n ?h ?t] =>
      pose proof (evict_filter n h t) as Hfil'; destruct (evict n h t) as [h2 t2] end.
    simpl in Hfil'. intros [= <- <- <-]. rewrite Hfil'.
    + rewrite Hfil. apply list_filter_filter_l. intros [ts tk] Hyoung Hold. simpl in *.
      apply Hyoung. lra.
    + rewrite Hfil. by apply ClustererMore.StronglySorted_filter.
  - intros [= <- <- <-]. done.
Qed.

(** When the clock does not run backwards and the window is in timestamp
    order, the window the engine call finds is the part of the earlier
    window that lies, at the last clock reading before the call, in the
    trailing 60 seconds: nothing younger is dropped, nothing older kept. *)
Theorem window_at_call_is_trailing_minute (L : Z) (env : BatchEnv) (batch_tokens : Z)
    (st : State) (now : Q) (history : list (Q * Z)) (tokens : Z) :
  (0 <= oversleep env)%Q →
  StronglySorted earlier (request_history st) →
  rate_limit_wait L env batch_tokens st = Ok (now, history, tokens) →
  history = filter (λ e, ¬ (60 < now - e.1)%Q) (request_history st).
Proof. apply rate_limit_wait_filter. Qed.

Lemma window_at_call_is_trailing_minute_witness :
  [(10%Q, 50)] = filter (λ e : Q * Z, ¬ (60 < 61 - e.1)%Q) [(0%Q, 50); (10%Q, 50)].
Proof.
  apply (window_at_call_is_trailing_minute 100 (one_second echo_engine) 60
           {| clock := 19; request_history := [(0%Q, 50); (10%Q, 50)];
              tokens_in_window := 100; all_llm_results := ∅ |} 61 [(10%Q, 50)] 50).
  - vm_compute. discriminate.
  - repeat constructor; vm_compute; discriminate.
  - vm_compute. reflexivity.
Defined.

Lemma dispatch_batch_ordered L env b st st' :
  steady env → ordered st → dispatch_batch L env b st = Ok st' →
  ordered st' ∧ (clock st <= clock st')%Q.
Proof.
  destruct b as [batch bt]. intros (Hgap & Hsleep & Hlat) [Hsorted Hbound].
  unfold dispatch_batch.
  destruct (rate_limit_wait L env bt st) as [[[now h] t]|] eqn:Hwait; [|done].
  pose proof (rate_limit_wait_filter L env bt st now h t Hsleep Hsorted Hwait)
    as Hh.
  assert (clock st <= now)%Q as Hnow.
  { revert Hwait. unfold rate_limit_wait.
    destruct (evict_spec (clock st + gap env) (request_history st) (tokens_in_window st))
      as (_ & _ & _ & _ & Hhead).
    destruct (evict _ (request_history st) _) as [h1 t1]. simpl in Hhead.
    case_bool_decide.
    - destruct h1 as [|[ts0 tk0] h1]; [done|]. specialize (Hhead _ _ eq_refl).
      simpl in Hhead. case_bool_decide; [done|]. destruct (evict _ _ _).
      intros [= <- _ _]. lra.
    - intros [= <- _ _]. lra. }
  assert (StronglySorted earlier h) as Hsh.
  { rewrite Hh. by apply ClustererMore.StronglySorted_filter. }
  assert (Forall (λ e, (e.1 <= now)%Q) h) as Hbh.
  { rewrite Hh. apply Forall_forall. intros e He. apply list_elem_of_filter in He as [_ He].
    eapply Forall_forall in Hbound; [|exact He]. simpl in Hbound. lra. }
  simpl. destruct (analyze env (llm_input_data batch)); intros [= <-]; simpl;
    (split; [split|lra]); simpl.
  - apply StronglySorted_app_2; [|done|repeat constructor].
    intros x y Hx Hy. apply list_elem_of_singleton in Hy as ->.
    eapply Forall_forall in Hbh; [|exact Hx]. unfold earlier. simpl in *. lra.
  - apply Forall_app. split; [|apply Forall_singleton; simpl; lra].
    eapply Forall_impl; [exact Hbh|]. intros e He. simpl in *. lra.
  - done.
  - eapply Forall_impl; [exact Hbh|]. intros e He. simpl in *. lra.
  - done.
  - eapply Forall_impl; [exact Hbh|]. intros e He. simpl in *. lra.
Qed.

(** When the clock never runs backwards, the window stays in the order of
    its timestamps through the whole loop, no timestamp lies after the last
    clock reading, and the clock only advances. *)
Theorem window_stays_in_timestamp_order (L : Z) (env : nat -> BatchEnv)
    (list_of_batches : list Batch) (i : nat) (st st' : State) :
  (∀ k, steady (env k)) →
  ordered st →
  dispatch_loop L env i list_of_batches st = Ok st' →
  ordered st' ∧ (clock st <= clock st')%Q.
Proof.
  intros Hsteady. revert i st.
  induction list_of_batches as [|b rest IH]; intros i st Hord Hrun.
  - injection Hrun as <-. split; [done|lra].
  - cbn -[dispatch_batch] in Hrun.
    destruct (dispatch_batch L (env i) b st) as [st1|] eqn:Hstep; [|done].
    cbn -[dispatch_batch] in Hrun.
    apply dispatch_batch_ordered in Hstep as [Hord1 Hclk1]; [|done..].
    destruct (IH (S i) st1 Hord1 Hrun) as [Hord' Hclk']. split; [done|lra].
Qed.

Lemma window_stays_in_timestamp_order_witness :
  ∃ st', dispatch_loop 100 (λ _, one_second echo_engine) 0
           [([payload 0 "a"], 60); ([payload 1 "b"], 60)] (initial_state 0) = Ok st' ∧
         ordered st' ∧ (clock (initial_state 0) <= clock st')%Q.
Proof.
  eexists. split; [vm_compute; reflexivity|].
  apply (window_stays_in_timestamp_order 100 (λ _, one_second echo_engine)
           [([payload 0 "a"], 60); ([payload 1 "b"], 60)] 0 (initial_state 0)).
  - intros k. repeat split; vm_compute; discriminate.
  - split; constructor.
  - vm_compute. reflexivity.
Defined.

Lemma merge_results_lookup (analysis_results : list Analysis.AnalysisResult)
    (m : gmap Z Analysis.AnalysisResult) (k : Z) :
  Forall (λ r, is_Some (Analysis.story_index r)) analysis_results →
  merge_results analysis_results m !! k
  = match last (filter (λ r, Analysis.story_index r = Some k) analysis_results) with
    | Some r => Some r
    | None => m !! k
    end.
Proof.
  intros Hall. revert m. induction Hall as [|r rs [k0 Hk0] _ IH]; intros m; [done|].
  simpl. rewrite Hk0, IH, filter_cons. destruct (decide _) as [Heq|Hne].
  - rewrite Hk0 in Heq. injection Heq as ->. rewrite last_cons.
    destruct (last _); [done|]. by rewrite lookup_insert_eq.
  - rewrite Hk0 in Hne. destruct (last _); [done|].
    rewrite lookup_insert_ne; [done|]. congruence.
Qed.

(** Merging a list of analyses that all carry a [story_index]: a key holds
    the last analysis of the list returned for it, and keeps its earlier
    value when the list has none. *)
Theorem merge_keeps_last_result (analysis_results : list Analysis.AnalysisResult)
    (m : gmap Z Analysis.AnalysisResult) (k : Z) :
  Forall (λ r, is_Some (Analysis.story_index r)) analysis_results →
  merge_results analysis_results m !! k
  = match last (filter (λ r, Analysis.story_index r = Some k) analysis_results) with
    | Some r => Some r
    | None => m !! k
    end.
Proof. apply merge_results_lookup. Qed.

Lemma merge_keeps_last_result_witness :
  merge_results [analysis_of 1; analysis_of 2; analysis_of 1] {[ 0 := analysis_of 0 ]} !! 1
  = match last (filter (λ r, Analysis.story_index r = Some 1)
                  [analysis_of 1; analysis_of 2; analysis_of 1]) with
    | Some r => Some r
    | None => ({[ 0 := analysis_of 0 ]} : gmap Z Analysis.AnalysisResult) !! 1
    end.
Proof.
  apply (merge_keeps_last_result [analysis_of 1; analysis_of 2; analysis_of 1]).
  repeat constructor; eexists; reflexivity.
Defined.

Lemma merge_results_app rs1 rs2 m :
  Forall (λ r, is_Some (Analysis.story_index r)) rs1 →
  merge_results (rs1 ++ rs2) m = merge_results rs2 (merge_results rs1 m).
Proof.
  intros Hall. revert m. induction Hall as [|r rs [k Hk] _ IH]; intros m; [done|].
  simpl. by rewrite Hk, IH.
Qed.

(** A list response with an analysis that lacks [story_index]: the
    analyses before it are merged, it and the later ones are not, and the
    batch is entered into the window all the same, since the window is
    charged before the merge begins. *)
Theorem malformed_result_stops_merge (L : Z) (env : BatchEnv)
    (batch : list StoryPayload) (batch_tokens : Z) (st : State)
    (now : Q) (history : list (Q * Z)) (tokens : Z)
    (before after : list Analysis.AnalysisResult) (bad : Analysis.AnalysisResult) :
  rate_limit_wait L env batch_tokens st = Ok (now, history, tokens) →
  analyze env (llm_input_data batch) = Analysis.ReturnsList (before ++ bad :: after) →
  Forall (λ r, is_Some (Analysis.story_index r)) before →
  Analysis.story_index bad = None →
  dispatch_batch L env (batch, batch_tokens) st
  = Ok {| clock := (now + latency env)%Q;
          request_history := history ++ [((now + latency env)%Q, batch_tokens)];
          tokens_in_window := tokens + batch_tokens;
          all_llm_results := merge_results before (all_llm_results st) |}.
Proof.
  intros Hwait Hresp Hbefore Hbad. unfold dispatch_batch. rewrite Hwait. simpl.
  rewrite Hresp, merge_results_app by done. simpl. by rewrite Hbad.
Qed.

Lemma malformed_result_stops_merge_witness :
  dispatch_batch 100 malformed_env ([payload 0 "a"; payload 1 "b"], 30) (initial_state 0)
  = Ok {| clock := (1 + latency malformed_env)%Q;
          request_history := [] ++ [((1 + latency malformed_env)%Q, 30)];
          tokens_in_window := 0 + 30;
          all_llm_results := merge_results [analysis_of 0]
                               (all_llm_results (initial_state 0)) |}.
Proof.
  apply (malformed_result_stops_merge 100 malformed_env [payload 0 "a"; payload 1 "b"] 30
           (initial_state 0) 1 [] 0 [analysis_of 0] [analysis_of 1] no_index).
  - vm_compute. reflexivity.
  - reflexivity.
  - repeat constructor. eexists; reflexivity.
  - reflexivity.
Defined.

Lemma merge_results_keyed rs : ∀ m,
  keyed m → keyed (merge_results rs m) ∧ dom m ⊆ dom (merge_results rs m).
Proof.
  induction rs as [|r rs IH]; intros m Hm; [done|]. simpl.
  destruct (Analysis.story_index r) as [k|] eqn:Hk; [|done].
  destruct (IH (<[k:=r]> m)) as [Hkeyed Hdom].
  - intros k' r' Hlook. destruct (decide (k = k')) as [<-|Hne].
    + rewrite lookup_insert_eq in Hlook. by injection Hlook as <-.
    + rewrite lookup_insert_ne in Hlook by done. by apply Hm.
  - split; [done|]. etrans; [|exact Hdom]. rewrite dom_insert. apply union_subseteq_r.
Qed.

(** Through the whole loop every analysis in the result mapping is stored
    under its own [story_index], and no key once entered is removed. *)
Theorem results_stay_keyed_by_index (L : Z) (env : nat -> BatchEnv)
    (list_of_batches : list Batch) (i : nat) (st st' : State) :
  keyed (all_llm_results st) →
  dispatch_loop L env i list_of_batches st = Ok st' →
  keyed (all_llm_results st') ∧ dom (all_llm_results st) ⊆ dom (all_llm_results st').
Proof.
  revert i st. induction list_of_batches as [|[batch bt] rest IH]; intros i st Hkeyed Hrun.
  - by injection Hrun as <-.
  - cbn -[dispatch_batch] in Hrun.
    destruct (dispatch_batch L (env i) (batch, bt) st) as [st1|] eqn:Hstep; [|done].
    cbn -[dispatch_batch] in Hrun.
    assert (keyed (all_llm_results st1) ∧ dom (all_llm_results st) ⊆ dom (all_llm_results st1))
      as [Hk1 Hd1].
    { unfold dispatch_batch in Hstep.
      destruct (rate_limit_wait L (env i) bt st) as [[[now h] t]|]; [|done]. simpl in Hstep.
      destruct (analyze (env i) (llm_input_data batch)); injection Hstep as <-; simpl;
        [by apply merge_results_keyed|done..]. }
    destruct (IH (S i) st1 Hk1 Hrun) as [Hk' Hd']. split; [done|]. by etrans.
Qed.

Lemma results_stay_keyed_by_index_witness :
  ∃ st', dispatch_loop 100 (λ _, one_second echo_engine) 0
           [([payload 0 "a"], 60); ([payload 1 "b"], 60)] (initial_state 0) = Ok st' ∧
         keyed (all_llm_results st') ∧
         dom (all_llm_results (initial_state 0)) ⊆ dom (all_llm_results st').
Proof.
  eexists. split; [vm_compute; reflexivity|].
  apply (results_stay_keyed_by_index 100 (λ _, one_second echo_engine)
           [([payload 0 "a"], 60); ([payload 1 "b"], 60)] 0 (initial_state 0)).
  - intros k r Hlook. change (all_llm_results (initial_state 0)) with (∅ : gmap Z Analysis.AnalysisResult) in Hlook.
    rewrite lookup_empty in Hlook. discriminate.
  - vm_compute. reflexivity.
Defined.
End DispatcherMore.

(** ** Assembler: the sort, the fields of a record, the two outputs *)

Module AssemblerMore.
Import Assembler AssemblerSpec AssemblerFacts StringOrder.

Lemma insert_desc_filter (len : nat) x l :
  filter (λ a, text_len a = len) (insert_desc x l)
  = filter (λ a, text_len a = len) (x :: l).
Proof.
  induction l as [|y l IH]; [done|]. simpl.
  destruct (text_len x <? text_len y)%nat eqn:Hlt; [|done].
  apply Nat.ltb_lt in Hlt. rewrite (filter_cons _ y), IH, !filter_cons.
  destruct (decide (text_len y = len)), (decide (text_len x = len)); try done. lia.
Qed.

Lemma sort_desc_filter (len : nat) l :
  filter (λ a, text_len a = len) (sort_desc l) = filter (λ a, text_len a = len) l.
Proof.
  induction l as [|x l IH]; [done|]. simpl.
  by rewrite insert_desc_filter, !filter_cons, IH.
Qed.

(** The sort of a bucket is a stable descending sort by text length: it
    rearranges the bucket, puts longer texts first, and keeps the articles
    of any one length in the order they had. *)
Theorem bucket_sort_is_stable (story_bucket : list Article) :
  sort_desc story_bucket ≡ₚ story_bucket ∧
  StronglySorted desc (sort_desc story_bucket) ∧
  ∀ len, filter (λ a, text_len a = len) (sort_desc story_bucket)
         = filter (λ a, text_len a = len) story_bucket.
Proof.
  split_and!; [apply sort_desc_perm| |intros len; apply sort_desc_filter].
  apply Sorted_StronglySorted; [|apply sort_desc_sorted].
  intros x y z. unfold desc. lia.
Qed.

(** The representative article, the first of the sorted bucket, is an
    article of the bucket with a text at least as long as any other, and of
    the articles with a text that long it is the first in bucket order. *)
Theorem representative_is_first_longest (story_bucket : list Article)
    (representative_article : Article) :
  head (sort_desc story_bucket) = Some representative_article →
  representative_article ∈ story_bucket ∧
  (∀ a, a ∈ story_bucket → (text_len a <= text_len representative_article)%nat) ∧
  head (filter (λ a, text_len a = text_len representative_article) story_bucket)
  = Some representative_article.
Proof.
  intros Hhead.
  destruct (sort_desc story_bucket) as [|rep sorted] eqn:Hsort; [done|].
  injection Hhead as ->.
  assert (StronglySorted desc (representative_article :: sorted)) as Hsorted.
  { rewrite <-Hsort. apply Sorted_StronglySorted; [|apply sort_desc_sorted].
    intros x y z. unfold desc. lia. }
  apply StronglySorted_cons in Hsorted as [Hall _].
  split_and!.
  - rewrite <-(sort_desc_perm story_bucket), Hsort. by left.
  - intros a Ha. rewrite <-(sort_desc_perm story_bucket), Hsort in Ha.
    apply elem_of_cons in Ha as [->|Ha]; [done|].
    by eapply Forall_forall in Hall.
  - rewrite <-sort_desc_filter, Hsort, filter_cons_True by done. done.
Qed.

Lemma representative_is_first_longest_witness :
  article "a2" "the longest text" "a.example" (Some "2024-01-02") ∈ three_articles ∧
  (∀ a, a ∈ three_articles →
     (text_len a <= text_len (article "a2" "the longest text" "a.example" (Some "2024-01-02")))%nat) ∧
  head (filter (λ a, text_len a
                     = text_len (article "a2" "the longest text" "a.example" (Some "2024-01-02")))
          three_articles)
  = Some (article "a2" "the longest text" "a.example" (Some "2024-01-02")).
Proof.
  apply (representative_is_first_longest three_articles). reflexivity.
Defined.

(** *** The order on strings *)

Lemma ascii_compare_refl c : Ascii.compare c c = Eq.
Proof. unfold Ascii.compare. apply N.compare_refl. Qed.

Lemma ascii_compare_lt_trans a b c :
  Ascii.compare a b = Lt → Ascii.compare b c = Lt → Ascii.compare a c = Lt.
Proof. unfold Ascii.compare. rewrite !N.compare_lt_iff. lia. Qed.

Lemma compare_refl s : String.compare s s = Eq.
Proof. induction s as [|c s IH]; [done|]. simpl. by rewrite ascii_compare_refl. Qed.

Lemma str_lt_trans a b c : str_lt a b → str_lt b c → str_lt a c.
Proof.
  unfold str_lt. revert b c. induction a as [|x a IH]; intros [|y b] [|z c]; simpl; try done.
  destruct (Ascii.compare x y) eqn:Hxy; [|clear IH|done];
    destruct (Ascii.compare y z) eqn:Hyz; try done.
  - apply Ascii.compare_eq_iff in Hxy as ->. apply Ascii.compare_eq_iff in Hyz as ->.
    rewrite ascii_compare_refl. apply IH.
  - apply Ascii.compare_eq_iff in Hxy as ->. by rewrite Hyz.
  - apply Ascii.compare_eq_iff in Hyz as <-. by rewrite Hxy.
  - by rewrite (ascii_compare_lt_trans x y z).
Qed.

Lemma str_le_lt_eq a b : str_le a b ↔ str_lt a b ∨ a = b.
Proof.
  unfold str_le, str_lt, String.leb. split.
  - destruct (String.compare a b) eqn:Hc; [|by left|done].
    right. by apply String.compare_eq_iff.
  - intros [->| ->]; [done|]. by rewrite compare_refl.
Qed.

Lemma str_le_trans a b c : str_le a b → str_le b c → str_le a c.
Proof.
  rewrite !str_le_lt_eq. intros [Hab| ->] [Hbc| ->]; auto.
  left. by eapply str_lt_trans.
Qed.

Lemma str_le_refl a : str_le a a.
Proof. apply str_le_lt_eq. by right. Qed.

Lemma min_str_spec smallest d :
  (min_str smallest d = smallest ∨ min_str smallest d = d) ∧
  str_le (min_str smallest d) smallest ∧ str_le (min_str smallest d) d.
Proof.
  unfold min_str, String.ltb. destruct (String.compare d smallest) eqn:Hc.
  - apply String.compare_eq_iff in Hc as ->. split_and!; [by left|apply str_le_refl..].
  - split_and!; [by right| |apply str_le_refl]. apply str_le_lt_eq. by left.
  - split_and!; [by left|apply str_le_refl|].
    unfold str_le, String.leb. rewrite String.compare_antisym, Hc. done.
Qed.

Lemma foldl_min_str rest : ∀ d,
  foldl min_str d rest ∈ d :: rest ∧
  ∀ x, x ∈ d :: rest → str_le (foldl min_str d rest) x.
Proof.
  induction rest as [|y rest IH]; intros d; simpl.
  - split; [by left|]. intros x ->%list_elem_of_singleton. apply str_le_refl.
  - destruct (IH (min_str d y)) as [Hin Hle].
    destruct (min_str_spec d y) as (Hcase & Hd & Hy). split.
    + apply elem_of_cons in Hin as [->|Hin]; [|by do 2 right].
      destruct Hcase as [-> | ->]; [by left|right; by left].
    + intros x Hx. apply elem_of_cons in Hx as [->|Hx].
      * eapply str_le_trans; [apply Hle; by left|done].
      * apply elem_of_cons in Hx as [->|Hx].
        -- eapply str_le_trans; [apply Hle; by left|done].
        -- apply Hle. by right.
Qed.

(** [first_seen_at] is the least of the non-empty publication dates of the
    bucket, in the order of Python strings, and is null exactly when no
    article of the bucket has a non-empty date. *)
Theorem first_seen_is_earliest_date (fresh_uuid : string)
    (analysis_result : Analysis.AnalysisResult) (representative_article : Article)
    (story_bucket : list Article) :
  match first_seen_at (story_record fresh_uuid analysis_result representative_article
                                    story_bucket) with
  | Some first =>
      first ≠ "" ∧
      (∃ a, a ∈ story_bucket ∧ published_at a = Some first) ∧
      (∀ a d, a ∈ story_bucket → published_at a = Some d → d ≠ "" → str_le first d)
  | None =>
      ∀ a, a ∈ story_bucket → published_at a = None ∨ published_at a = Some ""
  end.
Proof.
  simpl.
  assert (∀ d, d ∈ omap truthy_date story_bucket ↔
               d ≠ "" ∧ ∃ a, a ∈ story_bucket ∧ published_at a = Some d) as Hdates.
  { intros d. rewrite list_elem_of_omap. unfold truthy_date. split.
    - intros (a & Ha & Hd). destruct (published_at a) as [d'|] eqn:Hp; [|done].
      destruct (decide (d' = "")); [done|]. injection Hd as ->. eauto.
    - intros (Hne & a & Ha & Hp). exists a. split; [done|]. rewrite Hp.
      by destruct (decide (d = "")). }
  destruct (omap truthy_date story_bucket) as [|d rest] eqn:Hom; simpl.
  - intros a Ha. destruct (published_at a) as [d|] eqn:Hp; [|by left]. right.
    destruct (decide (d = "")) as [->|Hne]; [done|].
    exfalso. eapply elem_of_nil. apply Hdates. eauto.
  - destruct (foldl_min_str rest d) as [Hin Hle].
    apply Hdates in Hin as [Hne Hex]. split_and!; [done..|].
    intros a x Ha Hp Hx. apply Hle, Hdates. eauto.
Qed.

Lemma insert_unique_spec x l :
  StronglySorted str_lt l →
  StronglySorted str_lt (insert_unique x l) ∧
  ∀ y, y ∈ insert_unique x l ↔ y = x ∨ y ∈ l.
Proof.
  induction 1 as [|z l Hl IH Hz]; simpl.
  - split; [repeat constructor|]. intros y. rewrite list_elem_of_singleton, elem_of_nil. tauto.
  - destruct (String.compare x z) eqn:Hc.
    + apply String.compare_eq_iff in Hc as ->. split; [by constructor|].
      intros y. rewrite elem_of_cons. tauto.
    + split; [|intros y; rewrite !elem_of_cons; tauto].
      constructor; [by constructor|]. constructor; [done|].
      eapply Forall_impl; [exact Hz|]. intros w Hw. by eapply str_lt_trans.
    + destruct IH as [IHs IHm]. split.
      * constructor; [done|]. apply Forall_forall. intros w Hw.
        apply IHm in Hw as [->|Hw]; [|by eapply Forall_forall in Hz].
        unfold str_lt. rewrite String.compare_antisym, Hc. done.
      * intros y. rewrite !elem_of_cons, IHm. tauto.
Qed.

(** [source_domains] lists the source domains of the bucket, each once,
    in strictly increasing order of Python strings. *)
Theorem source_domains_sorted_and_unique (fresh_uuid : string)
    (analysis_result : Analysis.AnalysisResult) (representative_article : Article)
    (story_bucket : list Article) :
  let domains := source_domains (story_record fresh_uuid analysis_result
                                   representative_article story_bucket) in
  StronglySorted str_lt domains ∧ NoDup domains ∧
  ∀ d, d ∈ domains ↔ ∃ a, a ∈ story_bucket ∧ source_domain a = d.
Proof.
  simpl.
  assert (∀ l, StronglySorted str_lt (sorted_set l) ∧ ∀ y, y ∈ sorted_set l ↔ y ∈ l) as Hset.
  { induction l as [|x l [IHs IHm]]; simpl; [split; [constructor|done]|].
    destruct (insert_unique_spec x (sorted_set l) IHs) as [Hs Hm]. split; [done|].
    intros y. rewrite Hm, IHm, elem_of_cons. tauto. }
  destruct (Hset (source_domain <$> story_bucket)) as [Hs Hm]. split_and!; [done| |].
  - clear Hm. induction Hs as [|x l _ IH Hx]; constructor; [|done].
    intros Hin. eapply Forall_forall in Hx; [|exact Hin].
    unfold str_lt in Hx. by rewrite compare_refl in Hx.
  - intros d. rewrite Hm, list_elem_of_fmap.
    split; [intros (a & -> & Ha); eauto|intros (a & Ha & <-); eauto].
Qed.

Section Loop.
Variable uuid4 : nat -> string.
Variable all_llm_results : gmap Z Analysis.AnalysisResult.

Local Abbreviation has_result :=
  (λ p : StoryPayload, is_Some (all_llm_results !! story_index p)).

Lemma assemble_loop_ids story_payloads : ∀ fa fs vis FA FS VIS,
  assemble_loop uuid4 all_llm_results story_payloads fa fs vis = Ok (FA, FS, VIS) →
  ∃ new, FS = fs ++ new ∧
         story_id <$> new = uuid4 <$> seq (length fs) (length new) ∧
         length new = length (filter has_result story_payloads).
Proof.
  induction story_payloads as [|p rest IH]; intros fa fs vis FA FS VIS Hrun; simpl in Hrun.
  - injection Hrun as <- <- <-. exists []. by rewrite app_nil_r.
  - rewrite filter_cons.
    destruct (all_llm_results !! story_index p) as [ar|] eqn:Hres.
    + destruct (sort_desc (original_bucket p)) as [|rep sorted] eqn:Hsort; [done|].
      apply IH in Hrun as (new & -> & Hids & Hlen).
      rewrite length_app in Hids. simpl in Hids.
      eexists (_ :: new). rewrite <-app_assoc. split; [done|].
      rewrite decide_True by (rewrite ?Hres; eauto).
      replace (length fs + 1)%nat with (S (length fs)) in Hids by lia.
      split; [|cbn [length]; by rewrite Hlen].
      rewrite fmap_cons. cbn [length seq]. rewrite fmap_cons, Hids. done.
    + apply IH in Hrun as (new & -> & Hids & Hlen). exists new.
      rewrite decide_False; [done|]. rewrite ?Hres. by intros [? ?].
Qed.

Lemma assemble_loop_raise story_payloads : ∀ fa fs vis,
  ¬ Forall (ready all_llm_results) story_payloads →
  assemble_loop uuid4 all_llm_results story_payloads fa fs vis = Raise IndexError.
Proof.
  induction story_payloads as [|p rest IH]; intros fa fs vis Hno; simpl.
  - destruct Hno. constructor.
  - destruct (all_llm_results !! story_index p) as [ar|] eqn:Hres.
    + destruct (sort_desc (original_bucket p)) as [|rep sorted] eqn:Hsort; [done|].
      apply IH. intros Hrest. apply Hno. constructor; [|done].
      intros _ Hnil. by rewrite Hnil in Hsort.
    + apply IH. intros Hrest. apply Hno. constructor; [|done].
      unfold ready. rewrite Hres. by intros [? ?].
Qed.
End Loop.

(** The Assembler makes one story record for each payload that has an
    analysis, in payload order, and gives the [k]-th record the [k]-th
    identifier drawn. *)
Theorem one_record_per_analysed_story (uuid4 : nat -> string)
    (all_llm_results : gmap Z Analysis.AnalysisResult)
    (story_payloads story_payloads' : list StoryPayload)
    (final_articles : list Article) (final_stories : list StoryRecord) :
  assemble uuid4 all_llm_results story_payloads
    = Ok (final_articles, final_stories, story_payloads') →
  length final_stories
    = length (filter (λ p, is_Some (all_llm_results !! story_index p)) story_payloads) ∧
  story_id <$> final_stories = uuid4 <$> seq 0 (length final_stories) ∧
  without_story_id <$> final_stories = omap (appended all_llm_results) story_payloads.
Proof.
  unfold assemble. intros Hrun.
  destruct (assemble_loop_ids uuid4 all_llm_results _ _ _ _ _ _ _ Hrun)
    as (new & -> & Hids & Hlen).
  apply assemble_loop_spec in Hrun as (_ & _ & _ & Happ). simpl in *. done.
Qed.

Lemma one_record_per_analysed_story_witness :
  ∃ final_stories : list StoryRecord,
    length final_stories
      = length (filter (λ p, is_Some (one_result !! story_index p)) one_story) ∧
    story_id <$> final_stories = (λ _ : nat, "id-1") <$> seq 0 (length final_stories) ∧
    without_story_id <$> final_stories = omap (appended one_result) one_story.
Proof.
  eexists.
  refine (one_record_per_analysed_story (λ _, "id-1") one_result one_story _ _ _ _).
  vm_compute. reflexivity.
Defined.

(** The Assembler raises only when a payload that has an analysis has an
    empty bucket, by reading [story_bucket[0]]; then it raises
    [IndexError]. With no such payload it returns. *)
Theorem assembly_fails_only_on_empty_bucket (uuid4 : nat -> string)
    (all_llm_results : gmap Z Analysis.AnalysisResult)
    (story_payloads : list StoryPayload) (e : PyError) :
  assemble uuid4 all_llm_results story_payloads = Raise e ↔
  e = IndexError ∧
  ∃ p, p ∈ story_payloads ∧ is_Some (all_llm_results !! story_index p) ∧
       original_bucket p = [].
Proof.
  unfold assemble.
  assert (Forall (ready all_llm_results) story_payloads ↔
          ¬ ∃ p, p ∈ story_payloads ∧ is_Some (all_llm_results !! story_index p) ∧
                 original_bucket p = []) as Hready.
  { rewrite Forall_forall. unfold ready. split.
    - intros Hall (p & Hp & Hsome & Hnil). by apply (Hall p Hp Hsome).
    - intros Hno p Hp Hsome Hnil. apply Hno. eauto. }
  destruct (decide (Forall (ready all_llm_results) story_payloads)) as [Hall|Hno].
  - destruct (assemble_loop_total all_llm_results uuid4 story_payloads [] [] [] Hall)
      as [out ->].
    split; [done|]. intros [_ Hex]. by apply Hready in Hall.
  - rewrite (assemble_loop_raise uuid4 all_llm_results story_payloads [] [] [] Hno).
    split; [|by intros [-> _]]. intros [= <-]. split; [done|].
    apply not_Forall_Exists in Hno; [|apply _].
    apply Exists_exists in Hno as (p & Hp & Hnr). exists p. split; [done|].
    unfold ready in Hnr. simpl in Hnr.
    destruct (decide (is_Some (all_llm_results !! story_index p))) as [Hs|Hn];
      [|exfalso; apply Hnr; by intros ?].
    split; [done|]. destruct (original_bucket p); [done|]. exfalso. by apply Hnr.
Qed.

(** Both outputs hang together: the article output is the buckets of all
    payloads laid end to end, with or without an analysis; and every story
    record comes from a payload with an analysis, counts the articles of
    that bucket, lists their identifiers in sorted-bucket order, and so
    refers only to articles present in the article output. *)
Theorem stories_refer_to_written_articles (uuid4 : nat -> string)
    (all_llm_results : gmap Z Analysis.AnalysisResult)
    (story_payloads story_payloads' : list StoryPayload)
    (final_articles : list Article) (final_stories : list StoryRecord) :
  assemble uuid4 all_llm_results story_payloads
    = Ok (final_articles, final_stories, story_payloads') →
  final_articles = concat (original_bucket <$> story_payloads) ∧
  ∀ r, r ∈ final_stories →
    (∃ p, p ∈ story_payloads ∧ is_Some (all_llm_results !! story_index p) ∧
          article_ids r = article_id <$> sort_desc (original_bucket p) ∧
          article_count r = length (original_bucket p)) ∧
    ∀ id, id ∈ article_ids r → ∃ a, a ∈ final_articles ∧ article_id a = id.
Proof.
  unfold assemble. intros Hrun.
  apply assemble_loop_spec in Hrun as (_ & HFA & _ & HFS). simpl in HFA, HFS.
  split; [done|]. intros r Hr.
  assert (without_story_id r ∈ omap (appended all_llm_results) story_payloads) as Hin.
  { rewrite <-HFS. apply list_elem_of_fmap. eauto. }
  apply list_elem_of_omap in Hin as (p & Hp & Happ). unfold appended in Happ.
  destruct (all_llm_results !! story_index p) as [ar|] eqn:Hres; [|done]. simpl in Happ.
  destruct (sort_desc (original_bucket p)) as [|rep sorted] eqn:Hsort; [done|].
  injection Happ as _ _ _ _ _ _ Hids _ Hcount. simpl in Hids, Hcount.
  assert (article_ids r = article_id <$> sort_desc (original_bucket p)) as Hids'.
  { by rewrite Hsort. }
  split.
  - exists p. split_and!; [done|eauto|done|].
    rewrite <-Hcount. change (S (length sorted)) with (length (rep :: sorted)).
    rewrite <-Hsort. apply Permutation_length, sort_desc_perm.
  - intros id Hid. rewrite Hids' in Hid. apply list_elem_of_fmap in Hid as (a & -> & Ha).
    exists a. split; [|done]. rewrite HFA.
    rewrite sort_desc_perm in Ha.
    apply ClustererMore.elem_of_list_join. exists (original_bucket p). split; [done|].
    apply list_elem_of_fmap. eauto.
Qed.

Lemma stories_refer_to_written_articles_witness :
  ∃ (final_articles : list Article) (final_stories : list StoryRecord),
    final_articles = concat (original_bucket <$> one_story) ∧
    ∀ r, r ∈ final_stories →
      (∃ p, p ∈ one_story ∧ is_Some (one_result !! story_index p) ∧
            article_ids r = article_id <$> sort_desc (original_bucket p) ∧
            article_count r = length (original_bucket p)) ∧
      ∀ id, id ∈ article_ids r → ∃ a, a ∈ final_articles ∧ article_id a = id.
Proof.
  eexists _, _.
  refine (stories_refer_to_written_articles (λ _, "id-1") one_result one_story _ _ _ _).
  vm_compute. reflexivity.
Defined.
End AssemblerMore.

(** ** Engine selection and the Gemini engine *)

Module ConfigMore.
Import Config.

Lemma random_choice_in (r : nat) (seq : list string) :
  seq ≠ [] → random_choice r seq ∈ seq.
Proof.
  intros Hne. unfold random_choice. apply list_elem_of_lookup_total_2.
  apply Nat.mod_upper_bound. by destruct seq.
Qed.

(** Whatever [random] draws, the mock engine reports one of the three
    sentiments and, as category, one of the keys of [CATEGORICAL_QUERIES]. *)
Theorem mock_values_come_from_their_lists (r1 r2 : nat) (article_text : string) :
  ∃ sentiment category,
    mock_analysis_engine r1 r2 article_text
    = [("llm_canonical_title", VStr "This is a Mock Canonical Title for the Story");
       ("llm_summary", VStr "This is a mock summary of the article.");
       ("llm_sentiment", VStr sentiment);
       ("llm_key_entities", VStrList ["Mock Company A"; "Mock Person B"]);
       ("llm_suggested_category", VStr category)] ∧
    sentiment ∈ ["Positive"; "Neutral"; "Negative"] ∧
    category ∈ CATEGORICAL_QUERIES_keys.
Proof.
  eexists _, _. split; [reflexivity|]. split; by apply random_choice_in.
Qed.

(** The Dispatcher gets a list from [analyze_article] only when the engine
    name is [gemini], the API key is set and not empty, and the remote call
    itself returned that list; every other engine name, registered or not,
    yields an error dict, so each batch is skipped. *)
Theorem list_response_only_through_gemini (GEMINI_API_KEY : option string)
    (gemini_call : string -> Returned) (r1 r2 : nat) (engine_name : string)
    (batch_input_string : string) :
  (∀ items,
     dispatcher_call GEMINI_API_KEY gemini_call r1 r2 engine_name batch_input_string
       = Analysis.ReturnsList items →
     engine_name = "gemini" ∧
     (∃ key, GEMINI_API_KEY = Some key ∧ key ≠ "") ∧
     gemini_call batch_input_string = RList items) ∧
  (engine_name ≠ "gemini" →
   ∃ msg, analyze_article GEMINI_API_KEY gemini_call r1 r2 engine_name
            [("batch_input_json", batch_input_string)]
          = RDict [("error", VStr msg)]).
Proof.
  unfold dispatcher_call, analyze_article, ANALYSIS_ENGINES.
  destruct (decide (engine_name = "mock")) as [->|Hmock].
  { split; [done|]. intros _. eexists. reflexivity. }
  destruct (decide (engine_name = "gemini")) as [->|Hgem].
  - split; [|done]. rewrite lookup_insert_ne by done. rewrite lookup_singleton_eq.
    simpl. unfold gemini_analysis_engine.
    destruct GEMINI_API_KEY as [[|c key]|]; [done| |done].
    intros items Hret. split_and!; [done|by eexists|].
    destruct (gemini_call batch_input_string); [by injection Hret as ->|done].
  - rewrite lookup_insert_ne by done. rewrite lookup_singleton_ne by done.
    split; [done|]. intros _. eexists. reflexivity.
Qed.
End ConfigMore.

Module GeminiFacts.
Import Dispatcher WindowSpec DispatcherFacts DispatcherMore Gemini.

Section Engine.
Variable json_dumps : list (Z * string) -> string.
Variable key : string.
Variable generate_content : string -> ClientOutcome.
Variables r1 r2 : nat.
Hypothesis key_set : key ≠ "".

Lemma selected_engine_outcome input :
  selected_engine json_dumps (Some key) generate_content r1 r2 input
  = match generate_content (json_dumps input) with
    | Parsed items => Analysis.ReturnsList (model_dump <$> items)
    | Unparsed => Analysis.ReturnsList []
    | ClientRaises _ => Analysis.ReturnsOther
    end.
Proof.
  unfold selected_engine, Config.dispatcher_call, Config.analyze_article,
    Config.ANALYSIS_ENGINES, SELECTED_ENGINE.
  rewrite lookup_insert_ne by done. rewrite lookup_singleton_eq. simpl.
  unfold Config.gemini_analysis_engine, gemini_call. destruct key; [done|].
  by destruct (generate_content (json_dumps input)).
Qed.
End Engine.

(** A response of the Gemini engine that is not a parsed list (a safety
    block, an empty response) is turned into the empty list, which the
    Dispatcher takes for a success: the batch enters the rate window with
    its token count and the result mapping stays as it was, so the stories
    of the batch get no record although the call is charged. *)
Theorem unparsed_response_is_charged (L : Z) (json_dumps : list (Z * string) -> string)
    (key : string) (generate_content : string -> ClientOutcome) (r1 r2 : nat)
    (gap oversleep latency : Q) (batch : list StoryPayload) (batch_tokens : Z)
    (st : State) (now : Q) (history : list (Q * Z)) (tokens : Z) :
  let env := {| Dispatcher.gap := gap; Dispatcher.oversleep := oversleep;
                Dispatcher.latency := latency;
                analyze := selected_engine json_dumps (Some key) generate_content r1 r2 |} in
  key ≠ "" →
  generate_content (json_dumps (llm_input_data batch)) = Unparsed →
  rate_limit_wait L env batch_tokens st = Ok (now, history, tokens) →
  dispatch_batch L env (batch, batch_tokens) st
  = Ok {| clock := (now + latency)%Q;
          request_history := history ++ [((now + latency)%Q, batch_tokens)];
          tokens_in_window := tokens + batch_tokens;
          all_llm_results := all_llm_results st |}.
Proof.
  intros env Hkey Hresp Hwait. unfold dispatch_batch. rewrite Hwait. simpl.
  rewrite selected_engine_outcome by done. by rewrite Hresp.
Qed.

Lemma unparsed_response_is_charged_witness :
  dispatch_batch 100
    {| Dispatcher.gap := 1; Dispatcher.oversleep := 0; Dispatcher.latency := 2;
       analyze := selected_engine (λ _, "[]") (Some "k") (λ _, Unparsed) 0 0 |}
    ([payload 0 "a"], 30) (initial_state 0)
  = Ok {| clock := (1 + 2)%Q; request_history := [] ++ [((1 + 2)%Q, 30)];
          tokens_in_window := 0 + 30; all_llm_results := all_llm_results (initial_state 0) |}.
Proof.
  apply (unparsed_response_is_charged 100 (λ _, "[]") "k" (λ _, Unparsed) 0 0 1 0 2
           [payload 0 "a"] 30 (initial_state 0) 1 [] 0).
  - done.
  - reflexivity.
  - vm_compute. reflexivity.
Defined.

(** A parsed response of the Gemini engine is merged whole: every
    analysis it holds carries its [story_index], so after the batch each key
    holds the last analysis the response has for it, and every other key
    keeps what it held. *)
Theorem parsed_response_is_merged_whole (L : Z) (json_dumps : list (Z * string) -> string)
    (key : string) (generate_content : string -> ClientOutcome) (r1 r2 : nat)
    (gap oversleep latency : Q) (batch : list StoryPayload) (batch_tokens : Z)
    (st st' : State) (items : list StoryAnalysis) (k : Z) :
  let env := {| Dispatcher.gap := gap; Dispatcher.oversleep := oversleep;
                Dispatcher.latency := latency;
                analyze := selected_engine json_dumps (Some key) generate_content r1 r2 |} in
  key ≠ "" →
  generate_content (json_dumps (llm_input_data batch)) = Parsed items →
  dispatch_batch L env (batch, batch_tokens) st = Ok st' →
  all_llm_results st' !! k
  = match last (filter (λ item, story_index item = k) items) with
    | Some item => Some (model_dump item)
    | None => all_llm_results st !! k
    end.
Proof.
  intros env Hkey Hresp. unfold dispatch_batch.
  destruct (rate_limit_wait L env batch_tokens st) as [[[now h] t]|]; [|done]. simpl.
  rewrite selected_engine_outcome by done. rewrite Hresp. intros [= <-]. simpl.
  rewrite merge_results_lookup.
  - assert (filter (λ r, Analysis.story_index r = Some k) (model_dump <$> items)
            = model_dump <$> filter (λ item, story_index item = k) items) as ->.
    { clear. induction items as [|item items IH]; [done|]. csimpl.
      rewrite !filter_cons, IH. simpl.
      destruct (decide (Some (story_index item) = Some k)) as [Heq|Hne],
               (decide (story_index item = k)) as [Heq'|Hne']; try done.
      - by injection Heq.
      - by rewrite Heq' in Hne. }
    rewrite fmap_last. by destruct (last _).
  - apply Forall_fmap, Forall_forall. intros item _. simpl. eauto.
Qed.

Lemma parsed_response_is_merged_whole_witness :
  ∃ st',
    dispatch_batch 100
      {| Dispatcher.gap := 1; Dispatcher.oversleep := 0; Dispatcher.latency := 2;
         analyze := selected_engine (λ _, "[]") (Some "k")
                      (λ _, Parsed [sample_item]) 0 0 |}
      ([payload 0 "a"], 30) (initial_state 0) = Ok st' ∧
    all_llm_results st' !! 0
    = match last (filter (λ item, story_index item = 0) [sample_item]) with
      | Some item => Some (model_dump item)
      | None => all_llm_results (initial_state 0) !! 0
      end.
Proof.
  eexists. split; [vm_compute; reflexivity|].
  apply (parsed_response_is_merged_whole 100 (λ _, "[]") "k" (λ _, Parsed [sample_item])
           0 0 1 0 2 [payload 0 "a"] 30 (initial_state 0)).
  - done.
  - reflexivity.
  - vm_compute. reflexivity.
Defined.
End GeminiFacts.

(** ** The run: where it can fail *)

Module PipelineMore.
Import Pipeline.

(** Batches built under [LLM_MAX_TOKENS_PER_CALL] and dispatched under
    [LLM_TPM_LIMIT]: when the dispatch loop raises, the exception is the
    [IndexError] of the wait step, and some payload has by itself more
    tokens than [LLM_TPM_LIMIT] and sits alone in its batch. A batch of
    several payloads never causes it, since it holds at most
    [LLM_MAX_TOKENS_PER_CALL] tokens, which is below the limit. *)
Theorem dispatch_error_means_oversized_story (encode_len : string -> option Z)
    (start : Q) (env : nat -> Dispatcher.BatchEnv) (story_payloads : list StoryPayload)
    (bs : list Batch) (e : PyError) :
  Batcher.create_batches encode_len Config.LLM_MAX_TOKENS_PER_CALL story_payloads = Ok bs →
  Dispatcher.dispatch_loop Config.LLM_TPM_LIMIT env 0 bs (Dispatcher.initial_state start)
    = Raise e →
  e = IndexError ∧
  ∃ p n, p ∈ story_payloads ∧ encode_len (text_for_llm p) = Some n ∧
         Config.LLM_TPM_LIMIT < n ∧ ([p], n) ∈ bs.
Proof.
  intros Hbatch Hrun.
  pose proof (DispatcherMore.dispatch_loop_outcome Config.LLM_TPM_LIMIT env bs 0
                (Dispatcher.initial_state start) eq_refl) as Hout.
  rewrite Hrun in Hout. destruct Hout as (-> & [batch bt] & Hb & Hover).
  split; [done|]. simpl in Hover.
  apply BatcherFacts.batch_loop_ok in Hbatch as [Hok Hcat];
    [|constructor|split; [apply BatcherFacts.counted_nil|simpl; lia]].
  pose proof Hb as Hb'. eapply Forall_forall in Hok; [|exact Hb].
  destruct Hok as (Hne & (ns & Hall & Hsum) & Hle). simpl in *. subst story_payloads.
  destruct batch as [|p [|q batch]]; [done| |].
  - inversion Hall as [|? n ? ns' Hp Hrest]; subst. inversion Hrest; subst.
    simpl in Hover, Hb'. replace (n + 0) with n in * by lia.
    exists p, n. split_and!; [|done..].
    apply ClustererMore.elem_of_list_join. exists [p].
    split; [by left|]. apply list_elem_of_fmap. by exists ([p], n).
  - exfalso. unfold Config.LLM_TPM_LIMIT, Config.LLM_MAX_TOKENS_PER_CALL in *.
    simpl in Hle. lia.
Qed.

Lemma dispatch_error_means_oversized_story_witness :
  IndexError = IndexError ∧
  ∃ p n, p ∈ [payload 0 "a very long story"; payload 1 "a"] ∧
         (λ text : string, Some (20000 * Z.of_nat (String.length text))) (text_for_llm p)
           = Some n ∧
         Config.LLM_TPM_LIMIT < n ∧
         ([p], n) ∈ [([payload 0 "a very long story"], 340000); ([payload 1 "a"], 20000)].
Proof.
  apply (dispatch_error_means_oversized_story
           (λ text, Some (20000 * Z.of_nat (String.length text))) 70
           (λ _, one_second echo_engine)
           [payload 0 "a very long story"; payload 1 "a"]
           [([payload 0 "a very long story"], 340000); ([payload 1 "a"], 20000)]).
  - vm_compute. reflexivity.
  - vm_compute. reflexivity.
Defined.

(** The assembly loop, run on the payloads made from the buckets
    [cluster_stories] returns, does not raise, whatever the result mapping
    holds: every such bucket has a first article, so [story_bucket[0]] is
    always there. *)
Theorem assembly_of_clustered_buckets_returns (sim : nat -> nat -> Q) (τ : Q)
    (uuid4 : nat -> string) (all_llm_results : gmap Z Analysis.AnalysisResult)
    (articles : list Article) :
  ∃ final_stories story_payloads',
    Assembler.assemble uuid4 all_llm_results
      (Batcher.make_payloads (Clusterer.cluster_stories sim τ articles))
    = Ok (concat (Clusterer.cluster_stories sim τ articles),
          final_stories, story_payloads').
Proof.
  set (story_payloads := Batcher.make_payloads (Clusterer.cluster_stories sim τ articles)).
  destruct (AssemblerFacts.assemble_loop_total all_llm_results uuid4 story_payloads [] [] [])
    as [[[fa fs] ps'] Hasm].
  { apply Forall_forall. intros p Hp _ Hnil.
    pose proof (ClustererMore.cluster_stories_nonempty sim τ articles) as Hne.
    rewrite <-(PipelineFacts.make_payloads_buckets (Clusterer.cluster_stories sim τ articles))
      in Hne.
    fold story_payloads in Hne. rewrite Forall_fmap in Hne.
    eapply Forall_forall in Hne; [|exact Hp]. done. }
  exists fs, ps'. unfold Assembler.assemble. rewrite Hasm.
  apply AssemblerFacts.assemble_loop_spec in Hasm as (_ & -> & _ & _).
  unfold story_payloads. by rewrite PipelineFacts.make_payloads_buckets.
Qed.
End PipelineMore.

(** ** Stage 1: queries and feed links *)

Module QueriesFacts.
Import Queries.

Lemma append_assoc_l (a b c : string) : (a +:+ (b +:+ c) = (a +:+ b) +:+ c)%string.
Proof.
  induction a as [|x a IH]; [done|].
  change (String x (a +:+ (b +:+ c)) = String x ((a +:+ b) +:+ c))%string. by f_equal.
Qed.

(** One query is made for every pair of a region and a keyword category,
    region by region, followed by one query for every monitored site; each
    of them ends with the same date range. *)
Theorem queries_cover_regions_categories_and_sites (regions : list string)
    (categories : list (list string)) (sites : list string)
    (after_date before_date : string) :
  let queries := generate_google_queries regions categories sites after_date before_date in
  length queries = (length regions * length categories + length sites)%nat ∧
  (∀ i j region keywords,
     regions !! i = Some region → categories !! j = Some keywords →
     queries !! (i * length categories + j)%nat
     = Some (region_query after_date before_date region keywords)) ∧
  (∀ k site,
     sites !! k = Some site →
     queries !! (length regions * length categories + k)%nat
     = Some (site_query after_date before_date site)) ∧
  Forall (λ q, ∃ front, q = (front +:+ date_query after_date before_date)%string) queries.
Proof.
  intros queries. unfold queries, generate_google_queries.
  set (f := region_query after_date before_date).
  assert (∀ rs, length (rs ≫= λ region, f region <$> categories)
                = (length rs * length categories)%nat) as Hlen.
  { induction rs as [|r rs IH]; [done|]. csimpl.
    by rewrite length_app, length_fmap, IH. }
  assert (∀ rs i j region keywords,
            rs !! i = Some region → categories !! j = Some keywords →
            (rs ≫= λ region, f region <$> categories) !! (i * length categories + j)%nat
            = Some (f region keywords)) as Hlook.
  { induction rs as [|r rs IH]; intros i j region keywords Hi Hj; [done|]. csimpl.
    destruct i as [|i]; simpl in Hi.
    - injection Hi as ->. simpl. rewrite lookup_app_l.
      + by rewrite list_lookup_fmap, Hj.
      + rewrite length_fmap. by eapply lookup_lt_Some.
    - rewrite lookup_app_r; rewrite length_fmap; [|simpl; lia].
      replace (S i * length categories + j - length categories)%nat
        with (i * length categories + j)%nat by (simpl; lia).
      by apply IH. }
  split_and!.
  - by rewrite length_app, Hlen, length_fmap.
  - intros i j region keywords Hi Hj. rewrite lookup_app_l.
    + by apply Hlook.
    + rewrite Hlen. apply lookup_lt_Some in Hi, Hj. nia.
  - intros k site Hk. rewrite lookup_app_r; rewrite Hlen; [|lia].
    replace (length regions * length categories + k - length regions * length categories)%nat
      with k by lia.
    by rewrite list_lookup_fmap, Hk.
  - apply Forall_app. split.
    + apply Forall_forall. intros q Hq. apply list_elem_of_bind in Hq as (r & Hq & _).
      apply list_elem_of_fmap in Hq as (kw & -> & _).
      unfold f, region_query. eexists. rewrite !append_assoc_l. reflexivity.
    + apply Forall_fmap, Forall_forall. intros site _. simpl. unfold site_query.
      eexists. rewrite !append_assoc_l. reflexivity.
Qed.

(** The links returned hold no duplicate, and a link is returned exactly
    when it is a non-empty link of an entry of the feed of some query. *)
Theorem fetched_urls_are_the_distinct_links (feed_links : string -> list string)
    (queries : list string) :
  NoDup (fetch_google_urls feed_links queries) ∧
  ∀ url, url ∈ fetch_google_urls feed_links queries ↔
         url ≠ "" ∧ ∃ query, query ∈ queries ∧ url ∈ feed_links query.
Proof.
  unfold fetch_google_urls, raw_google_urls. split; [apply NoDup_elements|].
  intros url. rewrite elem_of_elements, elem_of_list_to_set, list_elem_of_bind. split.
  - intros (q & Hurl & Hq). apply list_elem_of_filter in Hurl as [Hne Hurl]. eauto.
  - intros (Hne & q & Hq & Hurl). exists q. split; [|done].
    by apply list_elem_of_filter.
Qed.
End QueriesFacts.
